(** * Anne Pro lighting driver: transmit queue and lighting controller

    Source: keyboards/anne_pro/anne_pro_lighting.c.

    The driver composes fixed command packets for the lighting chip and
    hands them to a UART transmit ring buffer (uart_tx_ringbuf), whose
    implementation is a separate translation unit.  Part I models that
    ring buffer as the specification describes it; Part II embeds the
    driver itself, parametric in the ring buffer and in the platform
    macros it uses. *)

From Stdlib Require Import ZArith Lia Bool.
From stdpp Require Import base list.

Local Open Scope Z_scope.

(** Bytes are [uint8_t] values, kept as integers in [0, 256). *)
Definition byte := Z.

(* ===================================================================== *)
(** * Part I: the transmit queue                                          *)
(* ===================================================================== *)

Module TransmitQueue.

(** Modelled from the spec: uart_tx_ringbuf.c is missing; the record
    follows section 3 (TransmitQueue): a fixed-capacity [buffer], the
    indices [head] and [tail], and the count [pending_writes] (the field
    the driver's initialiser calls sending_elements).  [head] and [tail]
    count the bytes taken out of and put into the queue, and the byte an
    index refers to is at that index modulo the capacity ([position]):
    a queue filled to its capacity, [tail] a whole capacity ahead of
    [head], is thereby not the empty queue, [head] equal to [tail], as
    scenario 2 of section 8 and "occupancy never exceeds capacity"
    require. *)
Record t := mk {
  buffer : list byte;
  head : nat;
  tail : nat;
  pending_writes : Z;
}.

Definition capacity (q : t) : nat := length (buffer q).

(** Modelled from the spec: uart_tx_ringbuf.c is missing; ring
    semantics, "indices wrap modulo capacity". *)
Definition position (q : t) (index : nat) : nat := (index mod capacity q)%nat.

(** Modelled from the spec: uart_tx_ringbuf.c is missing; "buffer
    occupancy (bytes between head and tail)", at most the capacity. *)
Definition occupancy (q : t) : nat := (tail q - head q)%nat.

(** Modelled from the spec: uart_tx_ringbuf.c is missing; the free space
    a caller must guarantee is capacity minus occupancy. *)
Definition free_capacity (q : t) : nat := (capacity q - occupancy q)%nat.

(** Modelled from the spec: uart_tx_ringbuf.c is missing; is_empty() is
    "head == tail". *)
Definition is_empty (q : t) : bool := (head q =? tail q)%nat.

(** One byte stored at the position of [tail], which advances. *)
Definition put (q : t) (b : byte) : t :=
  {| buffer := <[position q (tail q) := b]> (buffer q);
     head := head q;
     tail := (tail q + 1)%nat;
     pending_writes := pending_writes q |}.

(** Modelled from the spec: uart_tx_ringbuf.c is missing; write(data)
    "appends data to the tail of the ring buffer, advancing tail by
    len(data) modulo capacity; increments pending_writes by one", with no
    overflow check. *)
Definition write (data : list byte) (q : t) : t :=
  let q' := fold_left put data q in
  {| buffer := buffer q';
     head := head q';
     tail := tail q';
     pending_writes := pending_writes q' + 1 |}.

(** Modelled from the spec: uart_tx_ringbuf.c is missing; the
    "contiguous run of bytes from head to tail (or to buffer end if
    wraparound)". *)
Definition run_length (q : t) : nat :=
  Nat.min (occupancy q) (capacity q - position q (head q)).

(** The queue together with the serial peripheral it feeds: [in_flight]
    is [Some n] while the hardware transmits the [n] bytes that start at
    [head], and [sink] collects what the hardware has put on the wire. *)
Record system := mk_system {
  queue : t;
  in_flight : option nat;
  sink : list byte;
}.

(** Modelled from the spec: uart_tx_ringbuf.c is missing;
    start_transmission() arms the hardware with the contiguous run when
    the hardware is idle and the buffer is non-empty, and is a no-op
    otherwise. *)
Definition start_transmission (s : system) : system :=
  match in_flight s with
  | Some _ => s
  | None =>
      if is_empty (queue s) then s
      else {| queue := queue s;
              in_flight := Some (run_length (queue s));
              sink := sink s |}
  end.

(** Modelled from the spec: uart_tx_ringbuf.c is missing;
    finish_transmission() "advances head past the bytes just sent,
    decrements pending_writes by one" and re-arms the next contiguous run
    if bytes remain. *)
Definition finish_transmission (n : nat) (s : system) : system :=
  let q := queue s in
  start_transmission
    {| queue := {| buffer := buffer q;
                   head := (head q + n)%nat;
                   tail := tail q;
                   pending_writes := pending_writes q - 1 |};
       in_flight := None;
       sink := sink s |}.

(** The transmission-complete interrupt: the hardware has put the armed
    run on the wire, read from the backing buffer, and the handler calls
    [finish_transmission].  Without a transmission in flight no interrupt
    fires. *)
Definition complete (s : system) : system :=
  match in_flight s with
  | None => s
  | Some n =>
      finish_transmission n
        {| queue := queue s;
           in_flight := in_flight s;
           sink := sink s
                   ++ take n (drop (position (queue s) (head (queue s)))
                                (buffer (queue s))) |}
  end.

Definition write_sys (data : list byte) (s : system) : system :=
  {| queue := write data (queue s);
     in_flight := in_flight s;
     sink := sink s |}.

(** A queue constructed over a zeroed backing buffer of [cap] bytes. *)
Definition new (cap : nat) : system :=
  {| queue := {| buffer := replicate cap 0; head := 0; tail := 0;
                 pending_writes := 0 |};
     in_flight := None;
     sink := [] |}.

(** What can happen to the queue: the producer writes or kicks, the
    hardware completes. *)
Inductive op :=
| Write (data : list byte)
| Start
| Complete.

Definition step (s : system) (o : op) : system :=
  match o with
  | Write d => write_sys d s
  | Start => start_transmission s
  | Complete => complete s
  end.

Definition run (ops : list op) (s : system) : system := fold_left step ops s.

(** The byte stream the producer has written, in call order. *)
Fixpoint written (ops : list op) : list byte :=
  match ops with
  | [] => []
  | Write d :: ops => d ++ written ops
  | _ :: ops => written ops
  end.

(** Every write fits the free capacity at the time it is made. *)
Fixpoint within_free_capacity (ops : list op) (s : system) : Prop :=
  match ops with
  | [] => True
  | o :: ops =>
      match o with
      | Write d => (length d <= free_capacity (queue s))%nat
      | _ => True
      end /\ within_free_capacity ops (step s o)
  end.

(** Kick the queue and let the hardware run until it is idle: a pending
    run, the run to the end of the buffer and the wrapped remainder make
    at most three completions. *)
Definition flush (s : system) : system :=
  complete (complete (complete (start_transmission s))).

(** The bytes currently queued, oldest first. *)
Definition contents (q : t) : list byte :=
  take (occupancy q) (drop (position q (head q)) (buffer q ++ buffer q)).

(** ** Notions used to reason about the queue *)

Section Invariant.
Local Open Scope nat_scope.

(** The queue holds between nothing and its capacity. *)
Definition wf (q : t) : Prop :=
  head q <= tail q /\ tail q - head q <= capacity q.

(** The queue after [finish_transmission] has accounted for [n] bytes. *)
Definition advance (q : t) (n : nat) : t :=
  {| buffer := buffer q;
     head := head q + n;
     tail := tail q;
     pending_writes := (pending_writes q - 1)%Z |}.

(** The invariant of the queue and its hardware: a run in flight is not
    empty and lies within the contiguous run at [head]. *)
Definition inv (s : system) : Prop :=
  wf (queue s) /\
  match in_flight s with
  | Some n => 0 < n <= run_length (queue s)
  | None => True
  end.

(** How many completions a state is away from an idle, empty queue:
    an exactly armed run that ends at [tail] needs one, an armed run to
    the end of the buffer two, a run armed before later writes three. *)
Definition rank (s : system) : nat :=
  match in_flight s with
  | None => if head (queue s) =? tail (queue s) then 0 else 4
  | Some n =>
      if n =? run_length (queue s)
      then (if n =? occupancy (queue s) then 1 else 2)
      else 3
  end.

(** Scenario 1 of section 8: four bytes written, sent and completed. *)
Definition scenario_1 : list op :=
  [Write [1; 2; 3; 4]%Z; Start; Complete].

(** Scenario 2 of section 8: two writes fill a queue of eight bytes; the
    second is made while the first is on the wire and starts by itself
    when the first completes. *)
Definition scenario_2 : list op :=
  [Write [1; 2; 3; 4]%Z; Start; Write [5; 6; 7; 8]%Z; Complete; Complete].

(** Scenario 2 with both writes made before the kick. *)
Definition scenario_2_full : list op :=
  [Write [1; 2; 3; 4]%Z; Write [5; 6; 7; 8]%Z].

(** A run that wraps around the end of an eight-byte buffer while a
    transmission is in flight. *)
Definition wrapping_ops : list op :=
  [Write [1; 2; 3; 4]%Z; Start; Write [5; 6; 7]%Z; Complete;
   Write [8; 9; 10]%Z].

End Invariant.

End TransmitQueue.

(* ===================================================================== *)
(** * Part II: the lighting controller                                    *)
(* ===================================================================== *)

Module Lighting.

(** ** What the driver takes from other translation units *)

(** [keyrecord_t] as far as the driver reads it. *)
Record keypos_t := { col : Z; row : Z }.
Record keyevent_t := { key : keypos_t; pressed : bool; time : Z }.
Record keyrecord_t := { event : keyevent_t }.

(** Macros and constants of the keyboard configuration and of the core
    headers; they are parameters of the development. *)
Class Board := {
  MATRIX_COLS : Z;
  IS_NOEVENT : keyevent_t -> bool;
  IS_LED_ON : Z -> Z -> bool;
  USB_LED_CAPS_LOCK : Z;
  APL_MODE_OFF : Z;
}.

(** The interface of uart_tx_ringbuf.h the driver calls, over an
    arbitrary ring buffer state [R]. *)
Class UartTxRingbuf (R : Type) := {
  ringbuf_empty : R -> bool;
  ringbuf_write : list byte -> R -> R;
  ringbuf_start_transmission : R -> R;
  ringbuf_finish_transmission : R -> R;
}.

(** Calls that leave the driver, in the order they are made. *)
Inductive pin := C15.
Inductive pad := GPIOB_10 | GPIOB_11.
Inductive call :=
| WritePinLow (p : pin)
| WritePinHigh (p : pin)
| SetPinOutput (p : pin)
| UartStart
| PalSetPadMode (p : pad) (alternate : Z)
| Sleep (ms : Z)
| RingbufWrite (bytes : list byte)
| RingbufStart
| LedSetUser (usb_led : Z).

(** ** The driver's globals *)

Record state (R : Type) := mk_state {
  led_uart_ringbuf : R;
  leds_awake : bool;
  backlight_active : bool;
  capslock_active : bool;
  keystate : list byte;
}.
Arguments mk_state {R}.
Arguments led_uart_ringbuf {R}.
Arguments leds_awake {R}.
Arguments backlight_active {R}.
Arguments capslock_active {R}.
Arguments keystate {R}.

(** static uint8_t keystate[12] = {9, 10, 7, 0}; *)
Definition keystate_init : list byte := [9; 10; 7; 0; 0; 0; 0; 0; 0; 0; 0; 0].

Definition initial {R} (rb : R) : state R :=
  {| led_uart_ringbuf := rb;
     leds_awake := false;
     backlight_active := false;
     capslock_active := false;
     keystate := keystate_init |}.

(** ** A state monad with a call trace; [None] is undefined behaviour
    (an access outside an array). *)

Definition M (R A : Type) : Type := state R -> option (A * state R * list call).

#[global] Instance M_ret {R} : MRet (M R) := fun A x s => Some (x, s, []).

#[global] Instance M_bind {R} : MBind (M R) := fun A B f m s =>
  match m s with
  | None => None
  | Some (a, s1, t1) =>
      match f a s1 with
      | None => None
      | Some (b, s2, t2) => Some (b, s2, t1 ++ t2)
      end
  end.

Definition gets {R A} (f : state R -> A) : M R A := fun s => Some (f s, s, []).
Definition modify {R} (f : state R -> state R) : M R unit :=
  fun s => Some (tt, f s, []).
Definition emit {R} (c : call) : M R unit := fun s => Some (tt, s, [c]).
Definition undefined {R A} : M R A := fun _ => None.

Definition set_leds_awake {R} (b : bool) (s : state R) : state R :=
  mk_state (led_uart_ringbuf s) b (backlight_active s) (capslock_active s) (keystate s).
Definition set_backlight_active {R} (b : bool) (s : state R) : state R :=
  mk_state (led_uart_ringbuf s) (leds_awake s) b (capslock_active s) (keystate s).
Definition set_capslock_active {R} (b : bool) (s : state R) : state R :=
  mk_state (led_uart_ringbuf s) (leds_awake s) (backlight_active s) b (keystate s).
Definition set_keystate {R} (k : list byte) (s : state R) : state R :=
  mk_state (led_uart_ringbuf s) (leds_awake s) (backlight_active s) (capslock_active s) k.
Definition set_led_uart_ringbuf {R} (rb : R) (s : state R) : state R :=
  mk_state rb (leds_awake s) (backlight_active s) (capslock_active s) (keystate s).

(** Conversion to [uint8_t]. *)
Definition uint8 (x : Z) : byte := x mod 256.

Section Driver.
Context {board : Board} {R : Type} {ringbuf : UartTxRingbuf R}.

Local Abbreviation M := (M R).

(** ** Calls into the platform *)

Definition writePinLow (p : pin) : M unit := emit (WritePinLow p).
Definition writePinHigh (p : pin) : M unit := emit (WritePinHigh p).
Definition setPinOutput (p : pin) : M unit := emit (SetPinOutput p).
Definition uartStart : M unit := emit UartStart.
Definition palSetPadMode (p : pad) (alternate : Z) : M unit :=
  emit (PalSetPadMode p alternate).
Definition chThdSleepMilliseconds (ms : Z) : M unit := emit (Sleep ms).
Definition led_set_user (usb_led : Z) : M unit := emit (LedSetUser usb_led).

(** uart_tx_ringbuf_write(&led_uart_ringbuf, count, data): [data] is the
    array the pointer refers to, of which the first [count] bytes are
    handed over; reading past its end is undefined. *)
Definition uart_tx_ringbuf_write (count : Z) (data : list byte) : M unit :=
  fun s =>
    if (0 <=? count) && (count <=? Z.of_nat (length data)) then
      let bytes := take (Z.to_nat count) data in
      Some (tt,
            set_led_uart_ringbuf (ringbuf_write bytes (led_uart_ringbuf s)) s,
            [RingbufWrite bytes])
    else None.

Definition uart_tx_ringbuf_start_transmission : M unit :=
  fun s =>
    Some (tt,
          set_led_uart_ringbuf
            (ringbuf_start_transmission (led_uart_ringbuf s)) s,
          [RingbufStart]).

Definition uart_tx_ringbuf_empty : M bool :=
  gets (fun s => ringbuf_empty (led_uart_ringbuf s)).

(** Handler for finished LED UART transmissions (interrupt context). *)
Definition led_uart_txend : M unit :=
  modify (fun s =>
    set_led_uart_ringbuf (ringbuf_finish_transmission (led_uart_ringbuf s)) s).

(** keystate[i] = f(keystate[i]); an index outside the twelve bytes is
    undefined. *)
Definition keystate_update (i : Z) (f : byte -> byte) : M unit :=
  fun s =>
    if (0 <=? i) && (i <? Z.of_nat (length (keystate s))) then
      match keystate s !! Z.to_nat i with
      | Some x => Some (tt, set_keystate (<[Z.to_nat i := f x]> (keystate s)) s, [])
      | None => None
      end
    else None.

(** ** The driver *)

Definition anne_pro_lighting_init : M unit :=
  writePinLow C15;;
  setPinOutput C15;;
  uartStart;;
  palSetPadMode GPIOB_10 7;;
  palSetPadMode GPIOB_11 7.

Definition anne_pro_lighting_on : M unit :=
  awake ← gets leds_awake;
  if (awake : bool) then mret tt
  else
    writePinHigh C15;;
    chThdSleepMilliseconds 50;;
    modify (set_leds_awake true).

Definition anne_pro_lighting_off : M unit :=
  writePinLow C15;;
  modify (set_leds_awake false).

Definition led_set_kb (usb_led : Z) : M unit :=
  (if IS_LED_ON usb_led USB_LED_CAPS_LOCK then
     modify (set_capslock_active true);;
     anne_pro_lighting_on;;
     uart_tx_ringbuf_write 4 [9; 2; 12; 1; 0];;
     uart_tx_ringbuf_start_transmission
   else
     uart_tx_ringbuf_write 4 [9; 2; 12; 0; 0];;
     uart_tx_ringbuf_start_transmission;;
     modify (set_capslock_active false));;
  led_set_user usb_led.

Definition anne_pro_lighting_update_dynamic (record : keyrecord_t) : M unit :=
  if IS_NOEVENT (event record) then mret tt
  else
    active ← gets backlight_active;
    if (active : bool) then
      let row := row (key (event record)) in
      let col := col (key (event record)) in
      let position := row * MATRIX_COLS + col in
      let index := Z.quot position 8 in
      let bit := Z.rem position 8 in
      (if pressed (event record) then
         keystate_update (3 + index)
           (fun x => uint8 (Z.lor x (Z.shiftl 1 bit)))
       else
         keystate_update (3 + index)
           (fun x => uint8 (Z.land x (Z.lnot (Z.shiftl 1 bit)))));;
      ks ← gets keystate;
      uart_tx_ringbuf_write 12 ks;;
      uart_tx_ringbuf_start_transmission
    else mret tt.

(** The bit of the bitmap a key event addresses: [position] above. *)
Definition key_position (record : keyrecord_t) : Z :=
  row (key (event record)) * MATRIX_COLS + col (key (event record)).

Definition anne_pro_lighting_update : M unit :=
  empty ← uart_tx_ringbuf_empty;
  (if negb empty then uart_tx_ringbuf_start_transmission else mret tt);;
  backlight ← gets backlight_active;
  capslock ← gets capslock_active;
  let user_active := backlight || capslock in
  awake ← gets leds_awake;
  if awake && negb user_active then anne_pro_lighting_off else mret tt.

Definition anne_pro_lighting_enabled : M bool := gets backlight_active.

Definition anne_pro_lighting_rate_next : M unit :=
  active ← gets backlight_active;
  if (active : bool) then uart_tx_ringbuf_write 6 [9; 4; 5; 0; 1; 0; 0] else mret tt.

Definition anne_pro_lighting_brightness_next : M unit :=
  active ← gets backlight_active;
  if (active : bool) then uart_tx_ringbuf_write 6 [9; 4; 5; 0; 0; 1; 0] else mret tt.

Definition anne_pro_lighting_mode_next : M unit :=
  active ← gets backlight_active;
  if (active : bool) then uart_tx_ringbuf_write 6 [9; 4; 5; 1; 0; 0; 0] else mret tt.

Definition anne_pro_lighting_mode (mode : byte) : M unit :=
  awake ← gets leds_awake;
  if (awake : bool) then
    let buf := [9; 2; 1; mode] in
    uart_tx_ringbuf_write 4 buf;;
    uart_tx_ringbuf_start_transmission;;
    modify (set_backlight_active (negb (mode =? 0)))
  else mret tt.

Definition anne_pro_lighting_mode_last : M unit :=
  awake ← gets leds_awake;
  if (awake : bool) then
    uart_tx_ringbuf_write 3 [9; 1; 1; 0];;
    uart_tx_ringbuf_start_transmission;;
    modify (set_backlight_active true)
  else mret tt.

Definition anne_pro_lighting_toggle : M unit :=
  active ← gets backlight_active;
  if negb active then
    anne_pro_lighting_on;;
    anne_pro_lighting_mode_last
  else anne_pro_lighting_mode APL_MODE_OFF.

Definition anne_pro_lighting_rate_brightness (rate brightness : byte) : M unit :=
  active ← gets backlight_active;
  if (active : bool) then
    let brightness := if 10 <? brightness then 10 else brightness in
    let buf := [9; 4; 2; rate; brightness; 0] in
    uart_tx_ringbuf_write 6 buf;;
    uart_tx_ringbuf_start_transmission
  else mret tt.

Definition anne_pro_lighting_set_keys (keys : byte) (payload : list byte) : M unit :=
  awake ← gets leds_awake;
  if (awake : bool) then
    let buf := [9; uint8 (3 + 5 * keys); 11; 202; keys] in
    uart_tx_ringbuf_write 5 buf;;
    uart_tx_ringbuf_write (5 * keys) payload;;
    modify (set_backlight_active true)
  else mret tt.

(** ** The exposed operations as one interface *)

Inductive api :=
| Init
| LedSetKb (usb_led : Z)
| UpdateDynamic (record : keyrecord_t)
| Update
| Toggle
| On
| Off
| Enabled
| RateNext
| BrightnessNext
| ModeNext
| Mode (mode : byte)
| ModeLast
| RateBrightness (rate brightness : byte)
| SetKeys (keys : byte) (payload : list byte).

Definition exec (a : api) : M unit :=
  match a with
  | Init => anne_pro_lighting_init
  | LedSetKb usb_led => led_set_kb usb_led
  | UpdateDynamic record => anne_pro_lighting_update_dynamic record
  | Update => anne_pro_lighting_update
  | Toggle => anne_pro_lighting_toggle
  | On => anne_pro_lighting_on
  | Off => anne_pro_lighting_off
  | Enabled => _ ← anne_pro_lighting_enabled; mret tt
  | RateNext => anne_pro_lighting_rate_next
  | BrightnessNext => anne_pro_lighting_brightness_next
  | ModeNext => anne_pro_lighting_mode_next
  | Mode mode => anne_pro_lighting_mode mode
  | ModeLast => anne_pro_lighting_mode_last
  | RateBrightness rate brightness =>
      anne_pro_lighting_rate_brightness rate brightness
  | SetKeys keys payload => anne_pro_lighting_set_keys keys payload
  end.

Fixpoint exec_all (calls : list api) : M unit :=
  match calls with
  | [] => mret tt
  | a :: calls => exec a;; exec_all calls
  end.

End Driver.

(** ** Reading a trace *)

(** The bytes a trace hands to the ring buffer, in order. *)
Fixpoint enqueued (tr : list call) : list byte :=
  match tr with
  | [] => []
  | RingbufWrite bytes :: tr => bytes ++ enqueued tr
  | _ :: tr => enqueued tr
  end.

Definition is_write (c : call) : bool :=
  match c with RingbufWrite _ => true | _ => false end.

Definition is_start (c : call) : bool :=
  match c with RingbufStart => true | _ => false end.

(** Every write of the trace is followed, later in the same trace, by a
    request to start transmission. *)
Fixpoint kicked (tr : list call) : bool :=
  match tr with
  | [] => true
  | c :: tr => (if is_write c then existsb is_start tr else true) && kicked tr
  end.

(** Bit [p] of the bitmap held in bytes 3..11 of the keystate packet. *)
Definition keystate_bit (ks : list byte) (p : Z) : bool :=
  Z.testbit (nth (Z.to_nat (3 + p / 8)) ks 0) (p mod 8).

(** The keystate buffer as the driver maintains it: twelve bytes behind
    the header 09 0a 07. *)
Definition keystate_ok (ks : list byte) : Prop :=
  length ks = 12%nat /\ take 3 ks = [9; 10; 7] /\
  Forall (fun b => 0 <= b < 256) ks.

(** ** Instances used to run the driver *)

(** The ring buffer of Part I behind the driver's interface. *)
#[global] Instance spec_ringbuf : UartTxRingbuf TransmitQueue.system := {
  ringbuf_empty s := TransmitQueue.is_empty (TransmitQueue.queue s);
  ringbuf_write := TransmitQueue.write_sys;
  ringbuf_start_transmission := TransmitQueue.start_transmission;
  ringbuf_finish_transmission := TransmitQueue.complete;
}.

(** static uint8_t led_uart_tx_buffer[256] = {0}; head, tail and
    sending_elements zero. *)
Definition led_uart_ringbuf_init : TransmitQueue.system := TransmitQueue.new 256.

(** A board with the usual values of the macros: fourteen columns, the
    caps-lock bit at position 1, mode 0 for "off", and the no-event test
    of the core (tick zero, or position 255/255). *)
Definition anne_pro_board : Board := {|
  MATRIX_COLS := 14;
  IS_NOEVENT := fun e =>
    (time e =? 0) || ((row (key e) =? 255) && (col (key e) =? 255));
  IS_LED_ON := fun leds name => negb (Z.land leds (Z.shiftl 1 name) =? 0);
  USB_LED_CAPS_LOCK := 1;
  APL_MODE_OFF := 0;
|}.

(** ** Running the driver on an example *)

Definition trace_of {R A} (r : option (A * state R * list call)) : option (list call) :=
  match r with Some (_, _, tr) => Some tr | None => None end.

Definition state_of {R A} (r : option (A * state R * list call)) : option (state R) :=
  match r with Some (_, s, _) => Some s | None => None end.

(** The driver at power-up, on the example board, with the ring buffer
    of Part I. *)
Definition boot : state TransmitQueue.system := initial led_uart_ringbuf_init.

(** The controller woken up, without and with the backlight in use. *)
Definition awake_idle : state TransmitQueue.system := set_leds_awake true boot.
Definition awake_backlit : state TransmitQueue.system :=
  set_backlight_active true awake_idle.

(** Key events at the first and at the last key of a 5 x 14 matrix. *)
Definition press_first_key : keyrecord_t :=
  {| event := {| key := {| col := 0; row := 0 |}; pressed := true; time := 1 |} |}.
Definition press_last_key : keyrecord_t :=
  {| event := {| key := {| col := 13; row := 4 |}; pressed := true; time := 1 |} |}.

(** The calls one operation makes after the operations [pre] have run
    from power-up. *)
Definition trace_after (pre : list api) (a : api) : option (list call) :=
  match state_of (exec_all (board := anne_pro_board) pre boot) with
  | Some s => trace_of (exec (board := anne_pro_board) a s)
  | None => None
  end.

(** The state one operation leaves after the operations [pre] have run
    from power-up. *)
Definition state_after (pre : list api) (a : api) : option (state TransmitQueue.system) :=
  match state_of (exec_all (board := anne_pro_board) pre boot) with
  | Some s => state_of (exec (board := anne_pro_board) a s)
  | None => None
  end.

(** ** Notions for the properties of whole runs *)

(** A consumer of the lighting chip is active only while it is awake. *)
Definition users_awake {R} (s : state R) : Prop :=
  backlight_active s || capslock_active s = true -> leds_awake s = true.

(** The operations of a run that keep commands away from a sleeping
    chip: no direct off(), no init(), and led_set_kb only with the caps
    lock bit set. *)
Definition wakes_before_writing {board : Board} (a : api) : Prop :=
  a <> Off /\ a <> Init /\
  forall usb_led, a = LedSetKb usb_led ->
    IS_LED_ON usb_led USB_LED_CAPS_LOCK = true.

(** The supply of the lighting chip as the calls drive it: off, switched
    on but not yet settled, or ready for commands. *)
Inductive power := PowerOff | PowerUp | Ready.

Definition power_of {R} (s : state R) : power :=
  if leds_awake s then Ready else PowerOff.

Definition power_step (p : power) (c : call) : power :=
  match c with
  | WritePinLow C15 => PowerOff
  | WritePinHigh C15 => match p with PowerOff => PowerUp | _ => p end
  | Sleep ms =>
      match p with
      | PowerUp => if 50 <=? ms then Ready else PowerUp
      | _ => p
      end
  | _ => p
  end.

Definition power_after (p : power) (tr : list call) : power :=
  fold_left power_step tr p.

(** Every write of the trace finds the chip ready. *)
Fixpoint writes_ready (p : power) (tr : list call) : bool :=
  match tr with
  | [] => true
  | c :: tr =>
      (if is_write c then match p with Ready => true | _ => false end else true)
      && writes_ready (power_step p c) tr
  end.

(** A byte stream made of packets 09 <len> <len bytes>. *)
Inductive packets : list byte -> Prop :=
| packets_nil : packets []
| packets_cons (len : Z) (body rest : list byte) :
    Z.of_nat (length body) = len -> packets rest ->
    packets (9 :: len :: body ++ rest).

(** The release of the last key, and a host LED report with and without
    caps lock. *)
Definition release_last_key : keyrecord_t :=
  {| event := {| key := {| col := 13; row := 4 |}; pressed := false; time := 2 |} |}.
Definition usb_led_caps : Z := 2.
Definition usb_led_none : Z := 0.

End Lighting.

(* ===================================================================== *)
(** * Part III: properties of the transmit queue                          *)
(* ===================================================================== *)

Module TransmitQueueFacts.
Import TransmitQueue.
Local Open Scope nat_scope.

(** ** Positions in the ring *)

(** Below twice the capacity a wrap subtracts the capacity at most once. *)
Lemma mod_wrap (a c : nat) :
  0 < c -> a < 2 * c -> a mod c = if a <? c then a else a - c.
Proof.
  intros Hc Ha. destruct (Nat.ltb_spec a c) as [Hlt | Hge].
  - now apply Nat.mod_small.
  - replace a with ((a - c) + 1 * c) at 1 by lia.
    rewrite Nat.Div0.mod_add. apply Nat.mod_small. lia.
Qed.

Lemma position_lt (q : t) (i : nat) : 0 < capacity q -> position q i < capacity q.
Proof. intros Hc. unfold position. apply Nat.mod_upper_bound. lia. Qed.

Lemma position_add (q : t) (i d : nat) :
  0 < capacity q -> d <= capacity q ->
  position q (i + d)
  = if position q i + d <? capacity q then position q i + d
    else position q i + d - capacity q.
Proof.
  intros Hc Hd. pose proof (position_lt q i Hc) as Hi. unfold position in *.
  rewrite <- Nat.Div0.add_mod_idemp_l. apply mod_wrap; lia.
Qed.

(** Two indices less than a capacity apart sit at different positions. *)
Lemma position_apart (q : t) (i j : nat) :
  i < j -> j < i + capacity q -> position q i <> position q j.
Proof.
  intros Hij Hj. unfold position. intros Heq.
  pose proof (Nat.div_mod_eq i (capacity q)) as Hi.
  pose proof (Nat.div_mod_eq j (capacity q)) as Hjq.
  rewrite Heq in Hi.
  set (c := capacity q) in *. set (r := j mod c) in *.
  set (qi := i / c) in *. set (qj := j / c) in *.
  assert (qi < qj) by nia. nia.
Qed.

(** ** Writing *)

Lemma capacity_put (q : t) (b : byte) : capacity (put q b) = capacity q.
Proof. unfold capacity, put. simpl. apply length_insert. Qed.

Lemma occupancy_put (q : t) (b : byte) :
  wf q -> occupancy (put q b) = occupancy q + 1.
Proof. intros [Hle _]. unfold occupancy, put. simpl. lia. Qed.

Lemma wf_put (q : t) (b : byte) :
  wf q -> occupancy q < capacity q -> wf (put q b).
Proof.
  intros [Hle Hcap] Hroom. unfold wf. rewrite capacity_put.
  unfold occupancy in Hroom. unfold put; simpl. lia.
Qed.

(** The [i]-th queued byte sits at the position of [head + i]. *)
Lemma contents_lookup (q : t) (i : nat) :
  wf q -> i < occupancy q ->
  contents q !! i = buffer q !! position q (head q + i).
Proof.
  intros [Hle Hcap] Hi. unfold occupancy in Hi.
  assert (0 < capacity q) as Hc by lia.
  pose proof (position_lt q (head q) Hc) as Hh.
  unfold contents, occupancy.
  rewrite lookup_take_lt by assumption. rewrite lookup_drop.
  rewrite position_add by lia. unfold capacity in *.
  destruct (Nat.ltb_spec (position q (head q) + i) (length (buffer q))).
  - now rewrite lookup_app_l.
  - now rewrite lookup_app_r.
Qed.

Lemma length_contents (q : t) : wf q -> length (contents q) = occupancy q.
Proof.
  intros [Hle Hcap]. unfold contents, occupancy.
  rewrite length_take, length_drop, length_app.
  destruct (Nat.eq_dec (capacity q) 0) as [Hz | Hnz]; [lia |].
  pose proof (position_lt q (head q) ltac:(lia)). unfold capacity in *. lia.
Qed.

Lemma contents_put (q : t) (b : byte) :
  wf q -> occupancy q < capacity q ->
  contents (put q b) = contents q ++ [b].
Proof.
  intros Hwf Hroom. pose proof (wf_put q b Hwf Hroom) as Hwf'.
  pose proof (occupancy_put q b Hwf) as Hocc'.
  assert (0 < capacity q) as Hc by lia.
  destruct Hwf as [Hle Hcap]. assert (wf q) as Hwf by (split; assumption).
  apply list_eq. intros i.
  destruct (Nat.lt_ge_cases i (occupancy q + 1)) as [Hi | Hi].
  - rewrite contents_lookup by (assumption || lia).
    change (position (put q b) (head (put q b) + i)) with
      ((head q + i) mod capacity (put q b)).
    rewrite capacity_put. fold (position q (head q + i)).
    cbn [put buffer].
    destruct (Nat.eq_dec i (occupancy q)) as [-> | Hne].
    + rewrite lookup_app_r by (rewrite length_contents; [lia | easy]).
      rewrite length_contents by easy. rewrite Nat.sub_diag. simpl.
      unfold occupancy. replace (head q + (tail q - head q)) with (tail q) by lia.
      apply list_lookup_insert_eq. now apply position_lt.
    + rewrite lookup_app_l by (rewrite length_contents; [lia | easy]).
      rewrite contents_lookup by (easy || lia).
      apply list_lookup_insert_ne. unfold occupancy in *.
      intros Heq. symmetry in Heq. revert Heq. apply position_apart; lia.
  - rewrite !lookup_ge_None_2; [reflexivity | |].
    + rewrite length_app, length_contents by easy. simpl. lia.
    + rewrite length_contents by easy. lia.
Qed.

Lemma run_length_put (q : t) (b : byte) :
  wf q -> run_length q <= run_length (put q b).
Proof.
  intros Hwf. unfold run_length. rewrite occupancy_put by assumption.
  change (position (put q b) (head (put q b))) with
    (head q mod capacity (put q b)).
  rewrite capacity_put. fold (position q (head q)). lia.
Qed.

Lemma fold_put (d : list byte) (q : t) :
  wf q -> occupancy q + length d <= capacity q ->
  wf (fold_left put d q) /\
  occupancy (fold_left put d q) = occupancy q + length d /\
  contents (fold_left put d q) = contents q ++ d /\
  run_length q <= run_length (fold_left put d q).
Proof.
  revert q. induction d as [| b d IH]; intros q Hwf Hroom; simpl in *.
  - rewrite app_nil_r, Nat.add_0_r. auto.
  - destruct (IH (put q b)) as (Hw & Ho & Hk & Hr).
    + apply wf_put; [assumption | lia].
    + rewrite occupancy_put, capacity_put by assumption. lia.
    + rewrite occupancy_put in Ho by easy.
      rewrite contents_put in Hk by (easy || lia).
      pose proof (run_length_put q b Hwf).
      split; [exact Hw |]. split; [lia |]. split; [| lia].
      now rewrite Hk, <- app_assoc.
Qed.

Lemma write_spec (d : list byte) (q : t) :
  wf q -> length d <= free_capacity q ->
  wf (write d q) /\
  contents (write d q) = contents q ++ d /\
  run_length q <= run_length (write d q).
Proof.
  intros Hwf Hfit. unfold free_capacity in Hfit.
  assert (occupancy q <= capacity q) as Hocc by (unfold occupancy; apply Hwf).
  destruct (fold_put d q Hwf) as (Hw & Ho & Hk & Hr); [lia |].
  unfold write. split; [exact Hw | split; [| exact Hr]].
  rewrite <- Hk. destruct (fold_left put d q); reflexivity.
Qed.

(** ** The interrupt side *)

Lemma run_length_bounds (q : t) (n : nat) :
  0 < n <= run_length q ->
  0 < capacity q /\ n <= occupancy q /\ position q (head q) + n <= capacity q.
Proof. unfold run_length. lia. Qed.

Lemma wf_advance (q : t) (n : nat) :
  wf q -> n <= run_length q -> wf (advance q n).
Proof.
  intros [Hle Hcap] Hn. unfold run_length, occupancy in Hn.
  unfold wf, capacity in *. cbn [advance buffer head tail]. lia.
Qed.

Lemma occupancy_advance (q : t) (n : nat) :
  occupancy (advance q n) = occupancy q - n.
Proof. unfold occupancy. cbn [advance head tail]. lia. Qed.

(** The run the hardware reads is the oldest part of the contents, and
    advancing [head] removes exactly that part. *)
Lemma contents_advance (q : t) (n : nat) :
  wf q -> 0 < n <= run_length q ->
  take n (drop (position q (head q)) (buffer q)) ++ contents (advance q n)
  = contents q.
Proof.
  intros Hwf Hn. destruct (run_length_bounds q n Hn) as (Hc & Hocc & Hend).
  pose proof (occupancy_advance q n) as Ho'.
  pose proof (wf_advance q n Hwf ltac:(lia)) as Hwf'.
  assert (occupancy q <= capacity q) as Hcap by (unfold occupancy; apply Hwf).
  assert (length (take n (drop (position q (head q)) (buffer q))) = n) as Hlen.
  { rewrite length_take, length_drop. unfold capacity in Hend. lia. }
  apply list_eq. intros i.
  destruct (Nat.lt_ge_cases i n) as [Hi | Hi].
  - rewrite lookup_app_l by lia.
    rewrite lookup_take_lt, lookup_drop by assumption.
    rewrite contents_lookup by (assumption || lia).
    rewrite position_add by lia.
    destruct (Nat.ltb_spec (position q (head q) + i) (capacity q)); [reflexivity | lia].
  - rewrite lookup_app_r by lia. rewrite Hlen.
    destruct (Nat.lt_ge_cases i (occupancy q)) as [Hio | Hio].
    + rewrite !contents_lookup by (assumption || lia).
      cbn [advance buffer head]. unfold position.
      change (capacity (advance q n)) with (capacity q).
      f_equal. f_equal. lia.
    + rewrite !lookup_ge_None_2; [reflexivity | |];
        rewrite length_contents by assumption; lia.
Qed.

(** ** The invariant is kept *)

Lemma run_length_pos (q : t) : wf q -> head q <> tail q -> 0 < run_length q.
Proof.
  intros [Hle Hcap] Hne. unfold run_length, occupancy.
  assert (0 < capacity q) as Hc by lia.
  pose proof (position_lt q (head q) Hc). lia.
Qed.

Lemma start_transmission_inv (s : system) :
  inv s ->
  inv (start_transmission s) /\
  queue (start_transmission s) = queue s /\
  sink (start_transmission s) = sink s.
Proof.
  intros [Hwf Hfl]. unfold start_transmission, inv, is_empty.
  destruct (in_flight s) as [n |] eqn:E; [rewrite E; easy |].
  destruct (Nat.eqb_spec (head (queue s)) (tail (queue s))) as [Heq | Hne].
  - rewrite E. easy.
  - simpl. split; [split; [exact Hwf | split; [now apply run_length_pos | lia]] | easy].
Qed.

Lemma complete_inv (s : system) :
  inv s ->
  inv (complete s) /\
  sink (complete s) ++ contents (queue (complete s))
  = sink s ++ contents (queue s).
Proof.
  intros [Hwf Hfl]. unfold complete.
  destruct (in_flight s) as [n |] eqn:E;
    [| split; [split; [exact Hwf | now rewrite E] | reflexivity]].
  unfold finish_transmission. cbn [queue sink].
  fold (advance (queue s) n).
  match goal with
  | |- context [start_transmission ?x] =>
      destruct (start_transmission_inv x) as (Hi & Hq & Hs)
  end.
  { split; cbn [queue in_flight]; [apply wf_advance; [assumption | lia] | exact I]. }
  split; [exact Hi |].
  rewrite Hq, Hs. cbn [queue sink]. rewrite <- app_assoc.
  f_equal. now apply contents_advance.
Qed.

Lemma write_sys_inv (d : list byte) (s : system) :
  inv s -> length d <= free_capacity (queue s) ->
  inv (write_sys d s) /\
  sink (write_sys d s) ++ contents (queue (write_sys d s))
  = sink s ++ contents (queue s) ++ d.
Proof.
  intros [Hwf Hfl] Hfit.
  destruct (write_spec d (queue s) Hwf Hfit) as (Hw & Hk & Hr).
  unfold write_sys, inv. cbn [queue in_flight sink].
  split; [split; [exact Hw |] | now rewrite Hk].
  destruct (in_flight s); [lia | exact I].
Qed.

Lemma run_inv (ops : list op) (s : system) :
  within_free_capacity ops s -> inv s ->
  inv (run ops s) /\
  sink (run ops s) ++ contents (queue (run ops s))
  = sink s ++ contents (queue s) ++ written ops.
Proof.
  revert s. induction ops as [| o ops IH]; intros s Hfit Hinv.
  - simpl. now rewrite app_nil_r.
  - destruct Hfit as [Ho Hfit]. change (run (o :: ops) s) with (run ops (step s o)).
    destruct o as [d | |]; cbn [written].
    + destruct (write_sys_inv d s Hinv Ho) as [Hi He].
      destruct (IH _ Hfit Hi) as [Hi' He']. split; [exact Hi' |].
      rewrite He'. cbn [step]. rewrite (app_assoc (sink (write_sys d s))), He.
      now rewrite <- !app_assoc.
    + destruct (start_transmission_inv s Hinv) as (Hi & Hq & Hs).
      destruct (IH _ Hfit Hi) as [Hi' He']. split; [exact Hi' |].
      rewrite He'. cbn [step]. now rewrite Hq, Hs.
    + destruct (complete_inv s Hinv) as [Hi He].
      destruct (IH _ Hfit Hi) as [Hi' He']. split; [exact Hi' |].
      rewrite He'. cbn [step]. rewrite (app_assoc (sink (complete s))), He.
      now rewrite <- !app_assoc.
Qed.

(** ** Draining *)

Lemma complete_stage (s : system) (n : nat) :
  in_flight s = Some n ->
  queue (complete s) = advance (queue s) n /\
  in_flight (complete s)
  = if head (queue s) + n =? tail (queue s) then None
    else Some (run_length (advance (queue s) n)).
Proof.
  intros E. unfold complete. rewrite E. unfold finish_transmission.
  cbn [queue sink]. fold (advance (queue s) n).
  unfold start_transmission, is_empty. cbn [in_flight queue].
  change (head (advance (queue s) n)) with (head (queue s) + n).
  change (tail (advance (queue s) n)) with (tail (queue s)).
  destruct (head (queue s) + n =? tail (queue s)); split; reflexivity.
Qed.

Lemma rank_complete (s : system) :
  inv s -> rank s <= 3 -> rank (complete s) <= rank s - 1.
Proof.
  intros [Hwf Hfl] Hr. unfold rank in Hr |- *.
  destruct (in_flight s) as [n |] eqn:E.
  - destruct (complete_stage s n E) as (Hq & Hf). rewrite Hf, Hq.
    destruct (run_length_bounds (queue s) n Hfl) as (Hc & Hocc & Hend).
    destruct Hwf as [Hle Hcap].
    change (head (advance (queue s) n)) with (head (queue s) + n).
    change (tail (advance (queue s) n)) with (tail (queue s)).
    rewrite occupancy_advance.
    destruct (Nat.eqb_spec (head (queue s) + n) (tail (queue s))) as [Hdone | Hmore].
    + repeat match goal with
             | |- context [?a =? ?b] => destruct (Nat.eqb_spec a b)
             end; lia.
    + rewrite Nat.eqb_refl.
      destruct (Nat.eqb_spec n (run_length (queue s))) as [Harmed | Hpart].
      * destruct (Nat.eqb_spec n (occupancy (queue s))) as [Hall | Hwrap].
        { unfold occupancy in *. lia. }
        assert (run_length (advance (queue s) n) = occupancy (queue s) - n) as ->.
        { unfold run_length at 1. rewrite occupancy_advance.
          change (position (advance (queue s) n) (head (advance (queue s) n)))
            with (position (queue s) (head (queue s) + n)).
          change (capacity (advance (queue s) n)) with (capacity (queue s)).
          rewrite position_add by lia.
          unfold run_length in Harmed.
          destruct (Nat.ltb_spec (position (queue s) (head (queue s)) + n)
                      (capacity (queue s))); unfold occupancy in *; lia. }
        rewrite Nat.eqb_refl. lia.
      * destruct (_ =? _); lia.
  - unfold complete. rewrite !E.
    destruct (head (queue s) =? tail (queue s)); lia.
Qed.

Lemma rank_start (s : system) : rank (start_transmission s) <= 3.
Proof.
  unfold rank, start_transmission, is_empty.
  destruct (in_flight s) as [n |] eqn:E.
  - rewrite E. repeat match goal with
                      | |- context [if ?b then _ else _] => destruct b
                      end; lia.
  - destruct (Nat.eqb_spec (head (queue s)) (tail (queue s))) as [Heq | Hne].
    + rewrite E. rewrite (proj2 (Nat.eqb_eq _ _) Heq). lia.
    + cbn [in_flight queue]. rewrite Nat.eqb_refl.
      destruct (_ =? _); lia.
Qed.

Lemma contents_empty (q : t) : head q = tail q -> contents q = [].
Proof.
  intros Heq. unfold contents, occupancy. rewrite Heq, Nat.sub_diag. reflexivity.
Qed.

(** After a kick and three completions everything queued is on the wire. *)
Lemma flush_delivers (s : system) :
  inv s -> sink (flush s) = sink s ++ contents (queue s).
Proof.
  intros Hinv. unfold flush.
  destruct (start_transmission_inv s Hinv) as (H0 & Hq & Hs).
  pose proof (rank_start s) as R0.
  set (s0 := start_transmission s) in *.
  destruct (complete_inv s0 H0) as [H1 E1].
  pose proof (rank_complete s0 H0 R0) as R1.
  set (s1 := complete s0) in *.
  destruct (complete_inv s1 H1) as [H2 E2].
  pose proof (rank_complete s1 H1 ltac:(lia)) as R2.
  set (s2 := complete s1) in *.
  destruct (complete_inv s2 H2) as [H3 E3].
  pose proof (rank_complete s2 H2 ltac:(lia)) as R3.
  set (s3 := complete s2) in *.
  assert (head (queue s3) = tail (queue s3)) as Hempty.
  { assert (rank s3 = 0) as R by lia. unfold rank in R.
    destruct (in_flight s3).
    - repeat match goal with
             | H : context [if ?b then _ else _] |- _ => destruct b
             end; lia.
    - destruct (Nat.eqb_spec (head (queue s3)) (tail (queue s3))); [easy | lia]. }
  rewrite <- Hs, <- Hq, <- E1, <- E2, <- E3.
  rewrite (contents_empty (queue s3) Hempty).
  now rewrite app_nil_r.
Qed.

Lemma inv_new (cap : nat) : inv (new cap).
Proof.
  unfold inv, wf, capacity, new. simpl. rewrite length_replicate. lia.
Qed.

(** The scenarios of section 8 on the model. *)
Example scenario_1_runs :
  is_empty (queue (run scenario_1 (new 8))) = true /\
  pending_writes (queue (run scenario_1 (new 8))) = 0%Z /\
  sink (run scenario_1 (new 8)) = [1; 2; 3; 4]%Z.
Proof. repeat split. Qed.

Example scenario_2_runs :
  is_empty (queue (run (firstn 3 scenario_2) (new 8))) = false /\
  free_capacity (queue (run (firstn 3 scenario_2) (new 8))) = 0 /\
  sink (run (firstn 4 scenario_2) (new 8)) = [1; 2; 3; 4]%Z /\
  in_flight (run (firstn 4 scenario_2) (new 8)) = Some 4 /\
  sink (run scenario_2 (new 8)) = [1; 2; 3; 4; 5; 6; 7; 8]%Z /\
  is_empty (queue (run scenario_2 (new 8))) = true /\
  pending_writes (queue (run scenario_2 (new 8))) = 0%Z.
Proof. repeat split. Qed.

(** C1: for every interleaving of writes, kicks and transmission-complete
    interrupts on a fresh queue in which each write is no longer than the
    free capacity at the time it is made, the bytes on the wire followed
    by the bytes still queued are the concatenation of the written
    sequences in call order, and after a kick and the completions that
    follow the wire carries exactly that concatenation: nothing is
    reordered, lost or sent twice. *)
Theorem fifo_delivery (cap : nat) (ops : list op) :
  within_free_capacity ops (new cap) ->
  sink (run ops (new cap)) ++ contents (queue (run ops (new cap))) = written ops /\
  sink (flush (run ops (new cap))) = written ops.
Proof.
  intros Hfit.
  destruct (run_inv ops (new cap) Hfit (inv_new cap)) as [Hinv He].
  rewrite (contents_empty (queue (new cap)) eq_refl) in He.
  change (sink (new cap)) with (@nil byte) in He.
  cbn [app] in He. split; [exact He |].
  rewrite flush_delivers by exact Hinv. exact He.
Qed.

Lemma fifo_delivery_witness :
  within_free_capacity scenario_2_full (new 8) /\
  within_free_capacity wrapping_ops (new 8) /\
  sink (flush (run scenario_2_full (new 8))) = [1; 2; 3; 4; 5; 6; 7; 8]%Z /\
  sink (flush (run wrapping_ops (new 8))) = [1; 2; 3; 4; 5; 6; 7; 8; 9; 10]%Z.
Proof.
  assert (within_free_capacity scenario_2_full (new 8)) as Hfull
    by (cbn; repeat split; lia).
  assert (within_free_capacity wrapping_ops (new 8)) as Hwrap
    by (cbn; repeat split; lia).
  split; [exact Hfull |]. split; [exact Hwrap |]. split.
  - exact (proj2 (fifo_delivery 8 scenario_2_full Hfull)).
  - exact (proj2 (fifo_delivery 8 wrapping_ops Hwrap)).
Defined.

End TransmitQueueFacts.

(* ===================================================================== *)
(** * Part IV: properties of the lighting controller                      *)
(* ===================================================================== *)

Module LightingFacts.
Import Lighting.

(** Unfolds an operation of the driver down to tests on the state. *)
Ltac driver :=
  cbv [exec anne_pro_lighting_init anne_pro_lighting_on anne_pro_lighting_off
       led_set_kb anne_pro_lighting_update_dynamic anne_pro_lighting_update
       anne_pro_lighting_enabled anne_pro_lighting_rate_next
       anne_pro_lighting_brightness_next anne_pro_lighting_mode_next
       anne_pro_lighting_mode anne_pro_lighting_mode_last
       anne_pro_lighting_toggle anne_pro_lighting_rate_brightness
       anne_pro_lighting_set_keys keystate_update
       writePinLow writePinHigh setPinOutput uartStart palSetPadMode
       chThdSleepMilliseconds led_set_user uart_tx_ringbuf_write
       uart_tx_ringbuf_start_transmission uart_tx_ringbuf_empty
       mbind M_bind mret M_ret gets modify emit
       set_leds_awake set_backlight_active set_capslock_active
       set_led_uart_ringbuf set_keystate
       leds_awake backlight_active capslock_active led_uart_ringbuf keystate].

Section Facts.
Context {board : Board} {R : Type} {ringbuf : UartTxRingbuf R}.
Implicit Types (s : state R) (m r b : byte).

(** ** Reading results of the monad *)

Lemma bind_inv {A B} (m : M R A) (f : A -> M R B) s (y : B) s2 (t : list call) :
  (m ≫= f) s = Some (y, s2, t) ->
  exists a s1 t1 t2,
    m s = Some (a, s1, t1) /\ f a s1 = Some (y, s2, t2) /\ t = t1 ++ t2.
Proof.
  cbv [mbind M_bind]. destruct (m s) as [[[a s1] t1] |] eqn:Hm; [| discriminate].
  destruct (f a s1) as [[[y' s2'] t2] |] eqn:Hf; [| discriminate].
  intros H. inversion H; subst. now exists a, s1, t1, t2.
Qed.

Lemma keystate_update_inv (i : Z) (f : byte -> byte) s u s1 (t : list call) :
  keystate_update i f s = Some (u, s1, t) ->
  exists x,
    0 <= i < Z.of_nat (length (keystate s)) /\
    keystate s !! Z.to_nat i = Some x /\
    s1 = set_keystate (<[Z.to_nat i := f x]> (keystate s)) s /\ t = [].
Proof.
  unfold keystate_update.
  destruct (0 <=? i) eqn:Hlo; [| discriminate].
  destruct (i <? Z.of_nat (length (keystate s))) eqn:Hhi; [| discriminate].
  simpl. destruct (keystate s !! Z.to_nat i) as [x |] eqn:Hx; [| discriminate].
  intros H. inversion H; subst. exists x.
  apply Z.leb_le in Hlo. apply Z.ltb_lt in Hhi. repeat split; (lia || easy).
Qed.

Lemma ringbuf_write_inv (count : Z) (data : list byte) s u s1 (t : list call) :
  uart_tx_ringbuf_write count data s = Some (u, s1, t) ->
  0 <= count <= Z.of_nat (length data) /\
  s1 = set_led_uart_ringbuf
         (ringbuf_write (take (Z.to_nat count) data) (led_uart_ringbuf s)) s /\
  t = [RingbufWrite (take (Z.to_nat count) data)].
Proof.
  unfold uart_tx_ringbuf_write.
  destruct (0 <=? count) eqn:Hlo; [| discriminate].
  destruct (count <=? Z.of_nat (length data)) eqn:Hhi; [| discriminate].
  simpl. intros H. inversion H; subst.
  apply Z.leb_le in Hlo. apply Z.leb_le in Hhi. repeat split; lia.
Qed.

(** What update_dynamic does when it returns: nothing at all, or one
    update of the keystate buffer followed by its transmission. *)
Lemma update_dynamic_inv (record : keyrecord_t) s s' (tr : list call) :
  anne_pro_lighting_update_dynamic record s = Some (tt, s', tr) ->
  (s' = s /\ tr = [] /\
   (IS_NOEVENT (event record) = true \/ backlight_active s = false)) \/
  (IS_NOEVENT (event record) = false /\ backlight_active s = true /\
   exists x,
     let position :=
       row (key (event record)) * MATRIX_COLS + col (key (event record)) in
     let i := 3 + Z.quot position 8 in
     let bit := Z.rem position 8 in
     let ks' :=
       <[Z.to_nat i :=
           if pressed (event record)
           then uint8 (Z.lor x (Z.shiftl 1 bit))
           else uint8 (Z.land x (Z.lnot (Z.shiftl 1 bit)))]> (keystate s) in
     0 <= i < Z.of_nat (length (keystate s)) /\
     keystate s !! Z.to_nat i = Some x /\
     (12 <= length ks')%nat /\
     s' = set_led_uart_ringbuf
            (ringbuf_start_transmission
               (ringbuf_write (take 12 ks') (led_uart_ringbuf s)))
            (set_keystate ks' s) /\
     tr = [RingbufWrite (take 12 ks'); RingbufStart]).
Proof.
  unfold anne_pro_lighting_update_dynamic.
  destruct (IS_NOEVENT (event record)) eqn:Hno.
  { intros H. inversion H; subst. left. auto. }
  intros H. apply bind_inv in H as (active & s1 & t1 & t2 & Hg & Hk & ->).
  inversion Hg; subst; clear Hg.
  destruct (backlight_active s1) eqn:Hbl.
  2:{ inversion Hk; subst. left. auto. }
  right. split; [reflexivity | split; [reflexivity |]]. cbv zeta in Hk.
  apply bind_inv in Hk as ([] & s2 & t3 & t4 & Hu & Hk & ->).
  apply bind_inv in Hk as (ks2 & s3 & t5 & t6 & Hg & Hk & ->).
  inversion Hg; subst; clear Hg.
  apply bind_inv in Hk as ([] & s4 & t7 & t8 & Hw & Hk & ->).
  apply ringbuf_write_inv in Hw as (Hcount & -> & ->).
  inversion Hk; subst; clear Hk.
  assert (exists x g,
             keystate_update
               (3 + Z.quot (row (key (event record)) * MATRIX_COLS
                            + col (key (event record))) 8) g s1
             = Some (tt, s3, t3) /\
             g x = (if pressed (event record)
                    then uint8 (Z.lor x (Z.shiftl 1 (Z.rem (row (key (event record)) * MATRIX_COLS + col (key (event record))) 8)))
                    else uint8 (Z.land x (Z.lnot (Z.shiftl 1 (Z.rem (row (key (event record)) * MATRIX_COLS + col (key (event record))) 8))))) /\
             keystate s1 !! Z.to_nat (3 + Z.quot (row (key (event record)) * MATRIX_COLS + col (key (event record))) 8) = Some x)
    as (x & g & Hu' & Hg & Hx).
  { destruct (pressed (event record));
      destruct (keystate_update_inv _ _ _ _ _ _ Hu) as (x & _ & Hx & _);
      eexists x, _; (split; [exact Hu | split; [reflexivity | exact Hx]]). }
  apply keystate_update_inv in Hu' as (x' & Hi & Hx' & -> & ->).
  rewrite Hx in Hx'. inversion Hx'; subst x'. rewrite Hg.
  exists x. cbv zeta. cbn [set_keystate keystate led_uart_ringbuf] in *.
  change (Z.to_nat 12) with 12%nat.
  rewrite length_insert in Hcount.
  repeat split; try easy; try lia.
  rewrite length_insert. lia.
Qed.

(** ** Bits of the keystate bitmap *)

Lemma keystate_bit_insert (ks : list byte) (p q : Z) (v : byte) :
  length ks = 12%nat -> 0 <= p < 72 -> 0 <= q < 72 ->
  keystate_bit (<[Z.to_nat (3 + p / 8) := v]> ks) q
  = if q / 8 =? p / 8 then Z.testbit v (q mod 8) else keystate_bit ks q.
Proof.
  intros Hlen Hp Hq. unfold keystate_bit. rewrite !nth_lookup.
  assert (0 <= p / 8 < 9) by (split; [apply Z.div_pos | apply Z.div_lt_upper_bound]; lia).
  assert (0 <= q / 8 < 9) by (split; [apply Z.div_pos | apply Z.div_lt_upper_bound]; lia).
  destruct (Z.eqb_spec (q / 8) (p / 8)) as [-> | Hne].
  - rewrite list_lookup_insert_eq by lia. reflexivity.
  - rewrite list_lookup_insert_ne by lia. reflexivity.
Qed.

Lemma testbit_set (x bit m : Z) :
  0 <= bit -> 0 <= m < 8 ->
  Z.testbit (uint8 (Z.lor x (Z.shiftl 1 bit))) m = Z.testbit x m || (m =? bit).
Proof.
  intros Hb Hm. unfold uint8. change 256 with (2 ^ 8).
  rewrite Z.mod_pow2_bits_low by lia.
  rewrite Z.lor_spec, Z.shiftl_1_l, Z.pow2_bits_eqb by lia.
  now rewrite (Z.eqb_sym bit m).
Qed.

Lemma testbit_clear (x bit m : Z) :
  0 <= bit -> 0 <= m < 8 ->
  Z.testbit (uint8 (Z.land x (Z.lnot (Z.shiftl 1 bit)))) m
  = Z.testbit x m && negb (m =? bit).
Proof.
  intros Hb Hm. unfold uint8. change 256 with (2 ^ 8).
  rewrite Z.mod_pow2_bits_low by lia.
  rewrite Z.land_spec, Z.lnot_spec, Z.shiftl_1_l, Z.pow2_bits_eqb by lia.
  now rewrite (Z.eqb_sym bit m).
Qed.

(** A bit number is its byte index and its place within the byte. *)
Lemma bit_number_split (p q : Z) :
  q / 8 = p / 8 -> q mod 8 = p mod 8 -> q = p.
Proof.
  intros Hd Hm. rewrite (Z.div_mod q 8), (Z.div_mod p 8) by lia. congruence.
Qed.

Lemma keystate_update_run (i : Z) (f : byte -> byte) s (x : byte) :
  0 <= i < Z.of_nat (length (keystate s)) ->
  keystate s !! Z.to_nat i = Some x ->
  keystate_update i f s
  = Some (tt, set_keystate (<[Z.to_nat i := f x]> (keystate s)) s, []).
Proof.
  intros [Hlo Hhi] Hx. unfold keystate_update.
  rewrite (proj2 (Z.leb_le _ _) Hlo), (proj2 (Z.ltb_lt _ _) Hhi), Hx.
  reflexivity.
Qed.

Lemma ringbuf_write_run (data : list byte) s :
  uart_tx_ringbuf_write (Z.of_nat (length data)) data s
  = Some (tt,
          set_led_uart_ringbuf (ringbuf_write data (led_uart_ringbuf s)) s,
          [RingbufWrite data]).
Proof.
  unfold uart_tx_ringbuf_write.
  rewrite (proj2 (Z.leb_le _ _) (Nat2Z.is_nonneg _)), Z.leb_refl.
  cbn [andb]. now rewrite Nat2Z.id, firstn_all.
Qed.

(** C6 (as amended): for a key event that is not a no-event, at a
    position below 72, update_dynamic with the backlight active sets bit
    row * MATRIX_COLS + col of the bitmap when the key is pressed and
    clears it when released, leaves every other bit as it was, and hands
    to the ring buffer the twelve-byte keystate packet, the header
    09 0a 07 followed by the nine bitmap bytes, then requests
    transmission. *)
Theorem update_dynamic_active (record : keyrecord_t) s :
  IS_NOEVENT (event record) = false ->
  backlight_active s = true ->
  keystate_ok (keystate s) ->
  0 <= key_position record < 72 ->
  exists ks' s',
    anne_pro_lighting_update_dynamic record s
    = Some (tt, s', [RingbufWrite ks'; RingbufStart]) /\
    keystate s' = ks' /\
    led_uart_ringbuf s'
    = ringbuf_start_transmission (ringbuf_write ks' (led_uart_ringbuf s)) /\
    keystate_ok ks' /\
    (forall q, 0 <= q < 72 ->
       keystate_bit ks' q
       = if q =? key_position record then pressed (event record)
         else keystate_bit (keystate s) q) /\
    leds_awake s' = leds_awake s /\
    backlight_active s' = true /\
    capslock_active s' = capslock_active s.
Proof.
  intros Hno Hbl (Hlen & Hhead & Hrange) Hp.
  set (p := key_position record) in *.
  assert (0 <= p / 8 < 9) as Hidx
    by (split; [apply Z.div_pos | apply Z.div_lt_upper_bound]; lia).
  assert (0 <= p mod 8 < 8) as Hbit by (apply Z.mod_pos_bound; lia).
  destruct (lookup_lt_is_Some_2 (keystate s) (Z.to_nat (3 + p / 8))) as [x Hx];
    [lia |].
  set (v := if pressed (event record)
            then uint8 (Z.lor x (Z.shiftl 1 (p mod 8)))
            else uint8 (Z.land x (Z.lnot (Z.shiftl 1 (p mod 8))))).
  set (ks' := <[Z.to_nat (3 + p / 8) := v]> (keystate s)).
  assert (length ks' = 12%nat) as Hlen' by (unfold ks'; now rewrite length_insert).
  exists ks', (set_led_uart_ringbuf
                 (ringbuf_start_transmission
                    (ringbuf_write ks' (led_uart_ringbuf s)))
                 (set_keystate ks' s)).
  split.
  { unfold anne_pro_lighting_update_dynamic. rewrite Hno.
    cbv [mbind M_bind gets]. rewrite Hbl. cbv zeta.
    fold (key_position record). fold p.
    rewrite Z.quot_div_nonneg, Z.rem_mod_nonneg by lia.
    assert (forall f, f x = v ->
              keystate_update (3 + p / 8) f s = Some (tt, set_keystate ks' s, []))
      as Hrun.
    { intros f <-. apply keystate_update_run; [lia | exact Hx]. }
    assert ((if pressed (event record)
             then keystate_update (3 + p / 8)
                    (fun x => uint8 (Z.lor x (Z.shiftl 1 (p mod 8))))
             else keystate_update (3 + p / 8)
                    (fun x => uint8 (Z.land x (Z.lnot (Z.shiftl 1 (p mod 8))))))
              s = Some (tt, set_keystate ks' s, [])) as ->.
    { unfold v in Hrun. destruct (pressed (event record)); now apply Hrun. }
    cbn [set_keystate keystate].
    change 12 with (Z.of_nat 12). rewrite <- Hlen'.
    rewrite ringbuf_write_run. reflexivity. }
  split; [reflexivity |]. split; [reflexivity |].
  split.
  { split; [exact Hlen' | split].
    - unfold ks'. rewrite take_insert_ge by lia. exact Hhead.
    - unfold ks'. apply Forall_insert; [exact Hrange |].
      unfold v, uint8. destruct (pressed (event record));
        apply Z.mod_pos_bound; lia. }
  split; [| now destruct s].
  intros q Hq. unfold ks'. rewrite keystate_bit_insert by (assumption || lia).
  assert (0 <= q mod 8 < 8) as Hqbit by (apply Z.mod_pos_bound; lia).
  assert (nth (Z.to_nat (3 + p / 8)) (keystate s) 0 = x) as Hnth
    by (now rewrite nth_lookup, Hx).
  destruct (Z.eqb_spec q p) as [-> | Hne].
  - rewrite Z.eqb_refl. unfold v. destruct (pressed (event record)).
    + rewrite testbit_set by lia. rewrite Z.eqb_refl. apply orb_true_r.
    + rewrite testbit_clear by lia. rewrite Z.eqb_refl. apply andb_false_r.
  - destruct (Z.eqb_spec (q / 8) (p / 8)) as [Hd | Hd]; [| reflexivity].
    assert (q mod 8 <> p mod 8) as Hm
      by (intros Hm; apply Hne; now apply bit_number_split).
    apply Z.eqb_neq in Hm. unfold keystate_bit. rewrite Hd, Hnth.
    unfold v. destruct (pressed (event record)).
    + rewrite testbit_set by lia. rewrite Hm. apply orb_false_r.
    + rewrite testbit_clear by lia. rewrite Hm. apply andb_true_r.
Qed.

(** ** The keystate buffer keeps its shape *)

Lemma exec_keystate (a : api) s s' (tr : list call) :
  (forall record, a <> UpdateDynamic record) ->
  exec a s = Some (tt, s', tr) -> keystate s' = keystate s.
Proof.
  intros Hother. destruct a;
    try match goal with
        | |- context [UpdateDynamic ?e] => now destruct (Hother e)
        end.
  all: destruct s as [rb awake bl caps ks]; driver;
    repeat match goal with
           | |- context [if ?c then _ else _] => destruct c eqn:?
           end;
    intros H; try discriminate H; inversion H; subst; reflexivity.
Qed.

(** Every operation keeps the twelve bytes, the header and the byte
    range of the keystate buffer, for key events with non-negative row
    and column. *)
Lemma exec_keystate_ok (a : api) s s' (tr : list call) :
  0 <= MATRIX_COLS ->
  (forall record, a = UpdateDynamic record ->
     0 <= row (key (event record)) /\ 0 <= col (key (event record))) ->
  keystate_ok (keystate s) ->
  exec a s = Some (tt, s', tr) ->
  keystate_ok (keystate s').
Proof.
  intros Hcols Hev Hok Hrun.
  destruct a as [| | record | | | | | | | | | | | |];
    try (assert (keystate s' = keystate s) as ->
           by (eapply exec_keystate; [| exact Hrun]; discriminate);
         exact Hok).
  destruct (Hev record eq_refl) as [Hrow Hcol].
  apply update_dynamic_inv in Hrun
    as [(-> & _) | (_ & _ & x & Hi & Hx & _ & -> & _)]; [exact Hok |].
  destruct Hok as (Hlen & Hhead & Hrange).
  cbn [set_led_uart_ringbuf set_keystate keystate].
  assert (0 <= Z.quot (row (key (event record)) * MATRIX_COLS
                       + col (key (event record))) 8) as Hq
    by (apply Z.quot_pos; nia).
  split; [now rewrite length_insert | split].
  - rewrite take_insert_ge by lia. exact Hhead.
  - apply Forall_insert; [exact Hrange |].
    unfold uint8. destruct (pressed (event record)); apply Z.mod_pos_bound; lia.
Qed.

(** C7: while awake, set_mode(m) hands exactly the bytes 09 02 01 m to
    the ring buffer, requests transmission, and leaves backlight_active
    equal to (m != 0); the controller stays awake. *)
Theorem set_mode_awake m s :
  leds_awake s = true ->
  exists s',
    anne_pro_lighting_mode m s
    = Some (tt, s', [RingbufWrite [9; 2; 1; m]; RingbufStart]) /\
    led_uart_ringbuf s'
    = ringbuf_start_transmission (ringbuf_write [9; 2; 1; m] (led_uart_ringbuf s)) /\
    backlight_active s' = negb (m =? 0) /\
    leds_awake s' = true /\
    capslock_active s' = capslock_active s /\
    keystate s' = keystate s.
Proof.
  intros Hawake. destruct s as [rb awake bl caps ks]. simpl in Hawake. subst awake.
  eexists. split; [reflexivity |]. now cbn.
Qed.

(** C3 (as amended): while asleep, set_mode(0) makes no call at all and
    changes nothing: no command is enqueued and backlight_active keeps
    the value it had, so it is false afterwards exactly when it was false
    before. *)
Theorem set_mode_off_asleep s :
  leds_awake s = false ->
  anne_pro_lighting_mode 0 s = Some (tt, s, []) /\
  (backlight_active s = false ->
   exists s', state_of (anne_pro_lighting_mode 0 s) = Some s' /\
              backlight_active s' = false).
Proof.
  intros Hasleep. destruct s as [rb awake bl caps ks]. simpl in Hasleep. subst awake.
  split; [reflexivity |]. intros Hbl. simpl in Hbl. subst bl.
  eexists. split; reflexivity.
Qed.

(** C2 (as amended): while leds_awake is false,
    - init, update, on, off, is_enabled, set_mode, mode_last and
      set_key_colors make no write to the ring buffer;
    - update_dynamic makes none provided backlight_active is false;
    - rate_next, brightness_next, mode_next and rate_brightness enqueue
      their command exactly when backlight_active is set, the flag that
      guards them, and nothing otherwise;
    - led_set_kb enqueues 09 02 0c <caps lock bit>: with the bit off the
      write is made with the chip still asleep, with the bit on the chip
      is powered and settled before the write and awake afterwards;
    - toggle does nothing when backlight_active is set, and otherwise
      wakes the chip before it enqueues 09 01 01. *)
Theorem writes_while_asleep (a : api) s :
  leds_awake s = false ->
  match a with
  | LedSetKb usb_led =>
      exists s' tr,
        exec a s = Some (tt, s', tr) /\
        enqueued tr
        = [9; 2; 12; if IS_LED_ON usb_led USB_LED_CAPS_LOCK then 1 else 0] /\
        writes_ready PowerOff tr = IS_LED_ON usb_led USB_LED_CAPS_LOCK /\
        leds_awake s' = IS_LED_ON usb_led USB_LED_CAPS_LOCK
  | Toggle =>
      exists s' tr,
        exec a s = Some (tt, s', tr) /\
        if backlight_active s then s' = s /\ tr = []
        else enqueued tr = [9; 1; 1] /\ writes_ready PowerOff tr = true /\
             leds_awake s' = true
  | UpdateDynamic _ =>
      backlight_active s = false ->
      exists s' tr, exec a s = Some (tt, s', tr) /\ existsb is_write tr = false
  | RateNext =>
      exists s' tr,
        exec a s = Some (tt, s', tr) /\
        enqueued tr = (if backlight_active s then [9; 4; 5; 0; 1; 0] else []) /\
        existsb is_write tr = backlight_active s
  | BrightnessNext =>
      exists s' tr,
        exec a s = Some (tt, s', tr) /\
        enqueued tr = (if backlight_active s then [9; 4; 5; 0; 0; 1] else []) /\
        existsb is_write tr = backlight_active s
  | ModeNext =>
      exists s' tr,
        exec a s = Some (tt, s', tr) /\
        enqueued tr = (if backlight_active s then [9; 4; 5; 1; 0; 0] else []) /\
        existsb is_write tr = backlight_active s
  | RateBrightness rate brightness =>
      exists s' tr,
        exec a s = Some (tt, s', tr) /\
        enqueued tr
        = (if backlight_active s
           then [9; 4; 2; rate; Z.min brightness 10; 0] else []) /\
        existsb is_write tr = backlight_active s
  | _ =>
      exists s' tr, exec a s = Some (tt, s', tr) /\ existsb is_write tr = false
  end.
Proof.
  intros Hasleep. destruct s as [rb awake bl caps ks].
  simpl in Hasleep. subst awake.
  destruct a as [| usb_led | record | | | | | | | | | | | rate brightness |];
    try (eexists _, _; split; reflexivity).
  - unfold exec, led_set_kb.
    destruct (IS_LED_ON usb_led USB_LED_CAPS_LOCK);
      eexists _, _; (split; [reflexivity |]); cbn; repeat split.
  - intros Hbl. cbn in Hbl. subst bl. driver.
    destruct (IS_NOEVENT (event record)); eexists _, _; split; reflexivity.
  - driver. destruct (ringbuf_empty rb); eexists _, _; split; reflexivity.
  - destruct bl; eexists _, _; (split; [reflexivity |]); cbn; repeat split.
  - destruct bl; eexists _, _; (split; [reflexivity |]); cbn; repeat split.
  - destruct bl; eexists _, _; (split; [reflexivity |]); cbn; repeat split.
  - destruct bl; eexists _, _; (split; [reflexivity |]); cbn; repeat split.
  - assert ((if 10 <? brightness then 10 else brightness) = Z.min brightness 10)
      as Hmin by (destruct (Z.ltb_spec 10 brightness); lia).
    unfold exec, anne_pro_lighting_rate_brightness.
    destruct bl; cbn; rewrite ?Hmin;
      eexists _, _; (split; [reflexivity |]); cbn; repeat split.
Qed.

(** C4 (as amended): led_set_kb, update_dynamic, toggle, set_mode,
    mode_last and rate_brightness follow every write they make by a
    request to start transmission within the same call; rate_next,
    brightness_next, mode_next and set_key_colors make no such request;
    the periodic update makes one whenever the ring buffer is not
    empty. *)
Theorem kick_discipline (a : api) s s' (tr : list call) :
  exec a s = Some (tt, s', tr) ->
  match a with
  | RateNext | BrightnessNext | ModeNext | SetKeys _ _ =>
      existsb is_start tr = false
  | Update =>
      ringbuf_empty (led_uart_ringbuf s) = false -> existsb is_start tr = true
  | _ => kicked tr = true
  end.
Proof.
  destruct a as [| | record | | | | | | | | | | | |];
    try (intros H; apply update_dynamic_inv in H
           as [(_ & -> & _) | (_ & _ & x & _ & _ & _ & _ & ->)]; reflexivity).
  all: destruct s as [rb awake bl caps ks]; driver;
    repeat match goal with
           | |- context [if ?c then _ else _] => destruct c eqn:?
           | |- context [match ?c with Some _ => _ | None => _ end] =>
               destruct c eqn:?
           end;
    intros H; try discriminate H; inversion H; subst; clear H; cbn;
    try reflexivity; try (intros; reflexivity); try (intros; congruence).
  all: intros Hne; rewrite Hne in *; discriminate.
Qed.

(** C5 (as amended): while the backlight is active, rate_brightness(r, b)
    hands exactly the six bytes 09 04 02 r min(b, 10) 00 to the ring
    buffer and requests transmission; no flag changes. *)
Theorem rate_brightness_active r b s :
  backlight_active s = true ->
  exists s',
    anne_pro_lighting_rate_brightness r b s
    = Some (tt, s', [RingbufWrite [9; 4; 2; r; Z.min b 10; 0]; RingbufStart]) /\
    led_uart_ringbuf s'
    = ringbuf_start_transmission
        (ringbuf_write [9; 4; 2; r; Z.min b 10; 0] (led_uart_ringbuf s)) /\
    leds_awake s' = leds_awake s /\
    backlight_active s' = true /\
    capslock_active s' = capslock_active s /\
    keystate s' = keystate s.
Proof.
  intros Hbl. destruct s as [rb awake bl caps ks]. simpl in Hbl. subst bl.
  assert ((if 10 <? b then 10 else b) = Z.min b 10) as Hmin.
  { destruct (Z.ltb_spec 10 b); lia. }
  unfold anne_pro_lighting_rate_brightness. cbn. rewrite Hmin.
  eexists. split; [reflexivity |]. now cbn.
Qed.

(** C8: an update tick with the controller awake puts it to sleep when
    neither the backlight nor the capslock indicator is active, writing
    the power pin low as its last call, and leaves it awake, the pin
    untouched, when either is active. *)
Theorem update_sleeps_when_unused s :
  leds_awake s = true ->
  exists s' tr,
    anne_pro_lighting_update s = Some (tt, s', tr) /\
    backlight_active s' = backlight_active s /\
    capslock_active s' = capslock_active s /\
    (backlight_active s = false -> capslock_active s = false ->
     leds_awake s' = false /\ last tr = Some (WritePinLow C15)) /\
    (backlight_active s || capslock_active s = true ->
     leds_awake s' = true /\ ~ In (WritePinLow C15) tr).
Proof.
  intros Hawake. destruct s as [rb awake bl caps ks]. simpl in Hawake. subst awake.
  driver. destruct (ringbuf_empty rb), bl, caps; cbn;
    eexists _, _; (split; [reflexivity |]); cbn;
    repeat split; try discriminate; intros; try discriminate;
    intuition discriminate.
Qed.

(** While awake, set_key_colors(N, payload) with a payload of 5*N bytes
    hands the header 09 <(3+5*N) mod 256> 0b ca <N> and then the payload
    to the ring buffer in two writes, without a request to start
    transmission; the length byte equals 3+5*N as long as N is at most
    50, and backlight_active is set. *)
Lemma set_keys_awake (keys : byte) (payload : list byte) s :
  leds_awake s = true ->
  0 <= keys ->
  Z.of_nat (length payload) = 5 * keys ->
  exists s',
    anne_pro_lighting_set_keys keys payload s
    = Some (tt, s',
            [RingbufWrite [9; (3 + 5 * keys) mod 256; 11; 202; keys];
             RingbufWrite payload]) /\
    led_uart_ringbuf s'
    = ringbuf_write payload
        (ringbuf_write [9; (3 + 5 * keys) mod 256; 11; 202; keys]
           (led_uart_ringbuf s)) /\
    backlight_active s' = true /\
    (keys <= 50 -> (3 + 5 * keys) mod 256 = 3 + 5 * keys).
Proof.
  intros Hawake Hk Hlen. destruct s as [rb awake bl caps ks].
  simpl in Hawake. subst awake.
  unfold anne_pro_lighting_set_keys, uart_tx_ringbuf_write, uint8. cbn.
  rewrite Hlen.
  assert ((0 <=? 5 * keys) = true) as -> by (apply Z.leb_le; lia).
  rewrite Z.leb_refl. cbn.
  rewrite <- Hlen, Nat2Z.id, firstn_all.
  eexists. split; [reflexivity |]. cbn. repeat split.
  intros Hsmall. apply Z.mod_small. lia.
Qed.

(** C10: turning the lighting on when it is already awake makes no call
    (no pin write, no delay) and changes no state; in every state the
    controller is awake afterwards, and turning it on twice gives the
    same calls and the same state as turning it on once. *)
Theorem lighting_on_idempotent s :
  (leds_awake s = true -> anne_pro_lighting_on s = Some (tt, s, [])) /\
  (exists s' tr, anne_pro_lighting_on s = Some (tt, s', tr) /\
                 leds_awake s' = true) /\
  (anne_pro_lighting_on;; anne_pro_lighting_on) s = anne_pro_lighting_on s.
Proof.
  destruct s as [rb awake bl caps ks]. repeat split.
  - simpl. intros ->. reflexivity.
  - destruct awake; eexists _, _; split; reflexivity.
  - destruct awake; reflexivity.
Qed.

End Facts.

(** ** The driver on the example board *)

#[local] Existing Instance anne_pro_board.

Lemma set_mode_awake_witness :
  leds_awake awake_idle = true /\
  exists s',
    anne_pro_lighting_mode 5 awake_idle
    = Some (tt, s', [RingbufWrite [9; 2; 1; 5]; RingbufStart]) /\
    backlight_active s' = true.
Proof.
  split; [reflexivity |].
  destruct (set_mode_awake 5 awake_idle eq_refl) as (s' & Hrun & _ & Hbl & _).
  exists s'. split; [exact Hrun | exact Hbl].
Defined.

Lemma set_mode_off_asleep_witness :
  leds_awake boot = false /\
  anne_pro_lighting_mode 0 boot = Some (tt, boot, []).
Proof.
  split; [reflexivity |].
  exact (proj1 (set_mode_off_asleep boot eq_refl)).
Defined.

(** C3 (as stated) fails after a direct off() with the backlight in use:
    the controller is asleep, set_mode(0) does nothing, and
    backlight_active is still true afterwards. *)
Lemma set_mode_off_asleep_backlight_stays :
  option_map leds_awake (state_of (exec_all [On; Mode 5; Off] boot)) = Some false /\
  trace_after [On; Mode 5; Off] (Mode 0) = Some [] /\
  option_map backlight_active (state_after [On; Mode 5; Off] (Mode 0)) = Some true.
Proof. repeat split; vm_compute; reflexivity. Qed.

Lemma writes_while_asleep_witness :
  leds_awake boot = false /\
  (exists s' tr, exec (SetKeys 1 [1; 2; 3; 4; 5]) boot = Some (tt, s', tr) /\
                 existsb is_write tr = false) /\
  (exists s' tr, exec (LedSetKb usb_led_none) boot = Some (tt, s', tr) /\
                 enqueued tr = [9; 2; 12; 0] /\
                 writes_ready PowerOff tr = false).
Proof.
  split; [reflexivity |]. split.
  - exact (writes_while_asleep (SetKeys 1 [1; 2; 3; 4; 5]) boot eq_refl).
  - destruct (writes_while_asleep (board := anne_pro_board)
                (LedSetKb usb_led_none) boot eq_refl)
      as (s' & tr & Hrun & Henq & Hready & _).
    exists s', tr. split; [exact Hrun |]. split; [exact Henq | exact Hready].
Defined.

(** C2 (as stated) fails: after a direct off() with the backlight in use
    the controller is asleep and rate_next still enqueues its command;
    and at power-up, asleep, led_set_kb with capslock off enqueues the
    indicator-off command. *)
Lemma asleep_rate_next_enqueues :
  option_map leds_awake (state_of (exec_all [On; Mode 5; Off] boot)) = Some false /\
  trace_after [On; Mode 5; Off] RateNext = Some [RingbufWrite [9; 4; 5; 0; 1; 0]] /\
  leds_awake boot = false /\
  trace_after [] (LedSetKb 0)
  = Some [RingbufWrite [9; 2; 12; 0]; RingbufStart; LedSetUser 0].
Proof. repeat split; vm_compute; reflexivity. Qed.

Lemma kick_discipline_witness :
  exists s' tr, exec (Mode 5) awake_idle = Some (tt, s', tr) /\ kicked tr = true.
Proof.
  eexists _, _. split; [reflexivity |].
  apply (kick_discipline (Mode 5) awake_idle _ _ eq_refl).
Defined.

(** C4 (as stated) fails: with the backlight active, rate_next writes its
    command and makes no request to start transmission. *)
Lemma rate_next_without_kick :
  trace_after [On; Mode 5] RateNext = Some [RingbufWrite [9; 4; 5; 0; 1; 0]] /\
  kicked [RingbufWrite [9; 4; 5; 0; 1; 0]] = false.
Proof. split; vm_compute; reflexivity. Qed.

Lemma rate_brightness_active_witness :
  backlight_active awake_backlit = true /\
  exists s',
    anne_pro_lighting_rate_brightness 3 200 awake_backlit
    = Some (tt, s', [RingbufWrite [9; 4; 2; 3; 10; 0]; RingbufStart]).
Proof.
  split; [reflexivity |].
  destruct (rate_brightness_active 3 200 awake_backlit eq_refl) as (s' & Hrun & _).
  exists s'. exact Hrun.
Defined.

(** C5 (as stated) fails: rate_brightness(1, 20) enqueues six bytes, the
    five of the stated packet and a closing zero. *)
Lemma rate_brightness_six_bytes :
  option_map enqueued (trace_after [On; Mode 5] (RateBrightness 1 20))
  = Some [9; 4; 2; 1; 10; 0] /\
  option_map enqueued (trace_after [On; Mode 5] (RateBrightness 1 20))
  <> Some [9; 4; 2; 1; Z.min 20 10].
Proof. split; vm_compute; [reflexivity | discriminate]. Qed.

Lemma keystate_init_ok : keystate_ok keystate_init.
Proof.
  split; [reflexivity | split; [reflexivity |]].
  unfold keystate_init. repeat (constructor; [lia |]). constructor.
Qed.

Lemma update_dynamic_active_witness :
  IS_NOEVENT (event press_last_key) = false /\
  backlight_active awake_backlit = true /\
  keystate_ok (keystate awake_backlit) /\
  0 <= key_position press_last_key < 72 /\
  exists ks' s',
    anne_pro_lighting_update_dynamic press_last_key awake_backlit
    = Some (tt, s', [RingbufWrite ks'; RingbufStart]) /\
    keystate_bit ks' 69 = true /\
    keystate_bit ks' 68 = false.
Proof.
  assert (0 <= key_position press_last_key < 72) as Hpos
    by (change (0 <= 69 < 72); lia).
  split; [reflexivity |]. split; [reflexivity |].
  split; [exact keystate_init_ok |]. split; [exact Hpos |].
  destruct (update_dynamic_active (board := anne_pro_board)
              press_last_key awake_backlit
              eq_refl eq_refl keystate_init_ok Hpos)
    as (ks' & s' & Hrun & _ & _ & _ & Hbits & _).
  exists ks', s'. split; [exact Hrun |].
  split; [apply (Hbits 69) | apply (Hbits 68)]; lia.
Defined.

(** C6 (as stated) fails on the packet layout: pressing the first key
    puts bit 0 into the fourth byte of the packet, so the twelve bytes
    enqueued do not start with 09 0a 07 00. *)
Lemma keystate_packet_fourth_byte :
  option_map enqueued (trace_after [On; Mode 5] (UpdateDynamic press_first_key))
  = Some [9; 10; 7; 1; 0; 0; 0; 0; 0; 0; 0; 0] /\
  ~ (exists bitmap,
       option_map enqueued
         (trace_after [On; Mode 5] (UpdateDynamic press_first_key))
       = Some ([9; 10; 7; 0] ++ bitmap)).
Proof.
  split; [vm_compute; reflexivity |].
  intros [bitmap H]. vm_compute in H. discriminate H.
Qed.

Lemma update_sleeps_when_unused_witness :
  leds_awake awake_idle = true /\
  exists s' tr,
    anne_pro_lighting_update awake_idle = Some (tt, s', tr) /\
    leds_awake s' = false /\ last tr = Some (WritePinLow C15).
Proof.
  split; [reflexivity |].
  destruct (update_sleeps_when_unused awake_idle eq_refl)
    as (s' & tr & Hrun & _ & _ & Hsleep & _).
  exists s', tr. split; [exact Hrun |]. exact (Hsleep eq_refl eq_refl).
Defined.

Lemma set_keys_awake_witness :
  leds_awake awake_idle = true /\
  0 <= 2 /\
  Z.of_nat (length [1; 255; 0; 0; 0; 2; 0; 255; 0; 0]) = 5 * 2 /\
  exists s',
    anne_pro_lighting_set_keys 2 [1; 255; 0; 0; 0; 2; 0; 255; 0; 0] awake_idle
    = Some (tt, s',
            [RingbufWrite [9; 13; 11; 202; 2];
             RingbufWrite [1; 255; 0; 0; 0; 2; 0; 255; 0; 0]]).
Proof.
  assert (0 <= 2) as Hk by lia.
  split; [reflexivity |]. split; [exact Hk |]. split; [reflexivity |].
  destruct (set_keys_awake 2 [1; 255; 0; 0; 0; 2; 0; 255; 0; 0] awake_idle
              eq_refl Hk eq_refl) as (s' & Hrun & _).
  exists s'. exact Hrun.
Defined.


Lemma lighting_on_idempotent_witness :
  leds_awake awake_idle = true /\
  anne_pro_lighting_on awake_idle = Some (tt, awake_idle, []) /\
  (anne_pro_lighting_on;; anne_pro_lighting_on) boot = anne_pro_lighting_on boot.
Proof.
  split; [reflexivity |].
  split.
  - exact (proj1 (lighting_on_idempotent awake_idle) eq_refl).
  - exact (proj2 (proj2 (lighting_on_idempotent boot))).
Defined.

End LightingFacts.

(* ===================================================================== *)
(** * Part V: the driver over whole runs                                  *)
(* ===================================================================== *)

Module LightingRuns.
Import Lighting LightingFacts.

(** Runs one operation on a state given by its fields and splits on
    every test it makes. *)
Ltac run_cases H :=
  driver;
  repeat match goal with
         | |- context [if ?c then _ else _] => destruct c eqn:?
         end;
  intros H; try discriminate H; inversion H; subst; clear H.

Section Runs.
Context {board : Board} {R : Type} {ringbuf : UartTxRingbuf R}.
Implicit Types (s : state R) (tr : list call).

Lemma exec_all_cons_inv (a : api) (calls : list api) s s' tr :
  exec_all (a :: calls) s = Some (tt, s', tr) ->
  exists s1 t1 t2,
    exec a s = Some (tt, s1, t1) /\
    exec_all calls s1 = Some (tt, s', t2) /\ tr = t1 ++ t2.
Proof.
  intros H. apply bind_inv in H as ([] & s1 & t1 & t2 & Ha & Hr & ->).
  now exists s1, t1, t2.
Qed.

Lemma exec_all_nil_inv s s' tr :
  exec_all [] s = Some (tt, s', tr) -> s' = s /\ tr = [].
Proof. intros H. inversion H. auto. Qed.

(** ** Who keeps the chip awake *)

Lemma exec_users_awake (a : api) s s' tr :
  a <> Off -> users_awake s -> exec a s = Some (tt, s', tr) -> users_awake s'.
Proof.
  intros Hoff. destruct a as [| | record | | | | | | | | | | | |];
    try (now destruct Hoff);
    try (intros Hinv H; apply update_dynamic_inv in H
           as [(-> & _) | (_ & _ & x & _ & _ & _ & -> & _)]; exact Hinv).
  all: destruct s as [rb awake bl caps ks]; unfold users_awake; cbn;
    intros Hinv; run_cases H; cbn;
    repeat match goal with b : bool |- _ => destruct b end;
    cbn in *; try discriminate; auto.
Qed.

(** X1: over any run of operations that never calls off() directly, a
    state in which the backlight or the capslock indicator is active
    only while the controller is awake leads to such a state again. *)
Theorem users_awake_kept (calls : list api) s s' tr :
  Forall (fun a => a <> Off) calls ->
  users_awake s ->
  exec_all calls s = Some (tt, s', tr) ->
  users_awake s'.
Proof.
  intros Hcalls. revert s tr.
  induction Hcalls as [| a calls Ha _ IH]; intros s tr Hinv H.
  - apply exec_all_nil_inv in H as [-> _]. exact Hinv.
  - apply exec_all_cons_inv in H as (s1 & t1 & t2 & H1 & H2 & ->).
    eapply IH; [| exact H2]. eapply exec_users_awake; eauto.
Qed.

(** ** The power pin and the commands *)

Lemma power_after_app (p : power) (t1 t2 : list call) :
  power_after p (t1 ++ t2) = power_after (power_after p t1) t2.
Proof. unfold power_after. apply fold_left_app. Qed.

Lemma writes_ready_app (p : power) (t1 t2 : list call) :
  writes_ready p (t1 ++ t2)
  = writes_ready p t1 && writes_ready (power_after p t1) t2.
Proof.
  revert p. induction t1 as [| c t1 IH]; intros p; [reflexivity |].
  cbn [app writes_ready]. rewrite IH. unfold power_after. cbn [fold_left].
  now rewrite andb_assoc.
Qed.

Lemma exec_power (a : api) s s' tr :
  (a = Init -> leds_awake s = false) ->
  exec a s = Some (tt, s', tr) ->
  power_after (power_of s) tr = power_of s'.
Proof.
  destruct a as [| | record | | | | | | | | | | | |];
    try (intros _ H; apply update_dynamic_inv in H
           as [(-> & -> & _) | (_ & _ & x & _ & _ & _ & -> & ->)]; reflexivity).
  all: destruct s as [rb awake bl caps ks]; unfold power_of; cbn;
    intros Hinit; try specialize (Hinit eq_refl); run_cases H; cbn;
    repeat match goal with b : bool |- _ => destruct b end;
    cbn in *; try discriminate; reflexivity.
Qed.

Lemma exec_writes_ready (a : api) s s' tr :
  users_awake s ->
  (forall usb_led, a = LedSetKb usb_led ->
     IS_LED_ON usb_led USB_LED_CAPS_LOCK = true) ->
  exec a s = Some (tt, s', tr) ->
  writes_ready (power_of s) tr = true.
Proof.
  destruct a as [| usb_led | record | | | | | | | | | | | |].
  3:{ intros Hinv _ H. apply update_dynamic_inv in H
        as [(_ & -> & _) | (_ & Hbl & x & _ & _ & _ & _ & ->)]; [reflexivity |].
      unfold power_of. rewrite Hinv by (rewrite Hbl; reflexivity). reflexivity. }
  2:{ intros Hinv Hcaps. specialize (Hcaps usb_led eq_refl). revert Hinv.
      destruct s as [rb awake bl caps ks]. unfold users_awake, power_of. cbn.
      intros Hinv. driver. rewrite Hcaps.
      repeat match goal with
             | |- context [if ?c then _ else _] => destruct c eqn:?
             end;
        intros H; try discriminate H; inversion H; subst; reflexivity. }
  all: destruct s as [rb awake bl caps ks]; unfold users_awake, power_of; cbn;
    intros Hinv _; run_cases H; cbn;
    repeat match goal with b : bool |- _ => destruct b end;
    cbn in *; try discriminate; try reflexivity;
    try (discriminate Hinv; reflexivity).
Qed.

(** X2: over any run of operations without init(), the level the calls
    leave on the power pin agrees with leds_awake: the pin is high, and
    the 50 ms delay has passed, exactly when the flag is true. *)
Theorem power_mirrors_leds_awake (calls : list api) s s' tr :
  Forall (fun a => a <> Init) calls ->
  exec_all calls s = Some (tt, s', tr) ->
  power_after (power_of s) tr = power_of s'.
Proof.
  intros Hcalls. revert s tr.
  induction Hcalls as [| a calls Ha _ IH]; intros s tr H.
  - apply exec_all_nil_inv in H as [-> ->]. reflexivity.
  - apply exec_all_cons_inv in H as (s1 & t1 & t2 & H1 & H2 & ->).
    rewrite power_after_app.
    rewrite (exec_power a s s1 t1) by (assumption || now intros). now apply IH.
Qed.

(** X3: over any run of operations without a direct off(), without
    init() and without led_set_kb reporting caps lock off, started where
    the consumers are active only while the controller is awake, every
    write to the ring buffer is made with the power pin high and after
    the 50 ms settle delay. *)
Theorem writes_only_when_ready (calls : list api) s s' tr :
  Forall wakes_before_writing calls ->
  users_awake s ->
  exec_all calls s = Some (tt, s', tr) ->
  writes_ready (power_of s) tr = true.
Proof.
  intros Hcalls. revert s tr.
  induction Hcalls as [| a calls (Hoff & Hinit & Hcaps) _ IH]; intros s tr Hinv H.
  - apply exec_all_nil_inv in H as [_ ->]. reflexivity.
  - apply exec_all_cons_inv in H as (s1 & t1 & t2 & H1 & H2 & ->).
    rewrite writes_ready_app.
    rewrite (exec_writes_ready a s s1 t1 Hinv Hcaps H1).
    rewrite (exec_power a s s1 t1) by (assumption || now intros).
    cbn [andb]. eapply IH; [| exact H2].
    now apply (exec_users_awake a s s1 t1).
Qed.

(** ** Toggling and the capslock indicator *)

(** X4: with APL_MODE_OFF equal to 0 and the backlight active only while
    the controller is awake, toggle() inverts what
    anne_pro_lighting_enabled() reports: from inactive it wakes the
    controller and enqueues "resume last mode" (09 01 01), from active
    it enqueues "set mode 0" (09 02 01 00); either way the controller is
    awake afterwards and the write is followed by a request to start
    transmission. *)
Theorem toggle_inverts_enabled s :
  APL_MODE_OFF = 0 ->
  (backlight_active s = true -> leds_awake s = true) ->
  exists s' tr,
    anne_pro_lighting_toggle s = Some (tt, s', tr) /\
    anne_pro_lighting_enabled s' = Some (negb (backlight_active s), s', []) /\
    leds_awake s' = true /\
    enqueued tr = (if backlight_active s then [9; 2; 1; 0] else [9; 1; 1]) /\
    kicked tr = true /\
    capslock_active s' = capslock_active s.
Proof.
  intros Hoff Hinv. destruct s as [rb awake bl caps ks]. cbn in Hinv.
  unfold anne_pro_lighting_toggle, anne_pro_lighting_mode, anne_pro_lighting_enabled.
  rewrite Hoff. destruct bl.
  - rewrite (Hinv eq_refl). eexists _, _. split; [reflexivity |]. now cbn.
  - destruct awake; eexists _, _; (split; [reflexivity |]); now cbn.
Qed.

(** X5: asleep with backlight_active still set, which is the state a
    direct off() leaves, toggle() makes no call and changes nothing: it
    neither wakes the controller nor clears the flag. *)
Theorem toggle_stuck_after_off s :
  leds_awake s = false ->
  backlight_active s = true ->
  anne_pro_lighting_toggle s = Some (tt, s, []).
Proof.
  intros Hasleep Hbl. destruct s as [rb awake bl caps ks].
  cbn in Hasleep, Hbl. subst awake bl. reflexivity.
Qed.

(** X6: led_set_kb always enqueues the four-byte indicator command
    09 02 0c <1 when caps lock is on, else 0> and requests transmission,
    sets capslock_active to the caps lock bit, wakes the controller when
    the bit is on and leaves leds_awake alone when it is off, does not
    touch backlight_active, and calls led_set_user last. *)
Theorem led_set_kb_indicator (usb_led : Z) s :
  exists s' tr,
    led_set_kb usb_led s = Some (tt, s', tr) /\
    enqueued tr
    = [9; 2; 12; if IS_LED_ON usb_led USB_LED_CAPS_LOCK then 1 else 0] /\
    kicked tr = true /\
    capslock_active s' = IS_LED_ON usb_led USB_LED_CAPS_LOCK /\
    leds_awake s' = leds_awake s || IS_LED_ON usb_led USB_LED_CAPS_LOCK /\
    backlight_active s' = backlight_active s /\
    keystate s' = keystate s /\
    last tr = Some (LedSetUser usb_led).
Proof.
  destruct s as [rb awake bl caps ks]. unfold led_set_kb.
  destruct (IS_LED_ON usb_led USB_LED_CAPS_LOCK); [destruct awake |];
    eexists _, _; (split; [reflexivity |]); cbn;
    rewrite ?orb_false_r; repeat split.
Qed.

(** X7: the capslock indicator keeps the chip powered only while lit:
    from a sleeping controller with the backlight inactive, caps lock
    on, then caps lock off, then one update tick leaves the controller
    asleep again with the power pin low, having enqueued the indicator-on
    and the indicator-off command in that order, both while the chip was
    ready. *)
Theorem capslock_cycle (usb_on usb_off : Z) s :
  IS_LED_ON usb_on USB_LED_CAPS_LOCK = true ->
  IS_LED_ON usb_off USB_LED_CAPS_LOCK = false ->
  leds_awake s = false ->
  backlight_active s = false ->
  exists s' tr,
    exec_all [LedSetKb usb_on; LedSetKb usb_off; Update] s = Some (tt, s', tr) /\
    leds_awake s' = false /\
    capslock_active s' = false /\
    backlight_active s' = false /\
    power_after PowerOff tr = PowerOff /\
    enqueued tr = [9; 2; 12; 1; 9; 2; 12; 0] /\
    writes_ready PowerOff tr = true.
Proof.
  intros Hon Hoff Hasleep Hbl. destruct s as [rb awake bl caps ks].
  cbn in Hasleep, Hbl. subst awake bl.
  cbn [exec_all exec]. unfold led_set_kb, anne_pro_lighting_update.
  rewrite Hon, Hoff. driver. simpl.
  match goal with
  | |- context [ringbuf_empty ?r] => destruct (ringbuf_empty r)
  end; eexists _, _; (split; [reflexivity |]); cbn; repeat split.
Qed.

(** ** The keystate buffer over runs and key events *)

(** X8: over any run of operations that runs to its end (a run is
    undefined once a key event addresses a bit outside the twelve-byte
    buffer) and whose key events have non-negative row and column, with
    MATRIX_COLS non-negative, the keystate buffer keeps its twelve
    bytes, its header 09 0a 07 and bytes below 256; and a run without
    update_dynamic leaves the buffer exactly as it was. *)
Theorem keystate_shape_kept (calls : list api) s s' tr :
  0 <= MATRIX_COLS ->
  Forall (fun a => forall record, a = UpdateDynamic record ->
            0 <= row (key (event record)) /\ 0 <= col (key (event record)))
         calls ->
  keystate_ok (keystate s) ->
  exec_all calls s = Some (tt, s', tr) ->
  keystate_ok (keystate s') /\
  (Forall (fun a => forall record, a <> UpdateDynamic record) calls ->
   keystate s' = keystate s).
Proof.
  intros Hcols Hcalls. revert s tr.
  induction Hcalls as [| a calls Ha _ IH]; intros s tr Hok H.
  - apply exec_all_nil_inv in H as [-> _]. split; [exact Hok | reflexivity].
  - apply exec_all_cons_inv in H as (s1 & t1 & t2 & H1 & H2 & ->).
    pose proof (exec_keystate_ok a s s1 t1 Hcols Ha Hok H1) as Hok1.
    destruct (IH s1 t2 Hok1 H2) as [Hok' Hsame]. split; [exact Hok' |].
    intros Hnone. inversion Hnone as [| ? ? Hhead Htail]; subst.
    rewrite (Hsame Htail). exact (exec_keystate a s s1 t1 Hhead H1).
Qed.

Lemma set_then_clear (x bit : Z) :
  0 <= x < 256 -> 0 <= bit < 8 -> Z.testbit x bit = false ->
  uint8 (Z.land (uint8 (Z.lor x (Z.shiftl 1 bit))) (Z.lnot (Z.shiftl 1 bit))) = x.
Proof.
  intros Hx Hbit Hclear. apply Z.bits_inj'. intros n Hn.
  destruct (Z.lt_ge_cases n 8) as [Hlow | Hhigh].
  - rewrite testbit_clear, testbit_set by lia.
    destruct (Z.eqb_spec n bit) as [-> | Hne].
    + rewrite Hclear. reflexivity.
    + now rewrite orb_false_r, andb_true_r.
  - unfold uint8 at 1. change 256 with (2 ^ 8).
    rewrite Z.mod_pow2_bits_high by lia.
    rewrite <- (Z.mod_small x (2 ^ 8)) by (change (2 ^ 8) with 256; lia).
    now rewrite Z.mod_pow2_bits_high by lia.
Qed.

(** X9: with the backlight active, pressing a key whose bit is clear and
    then releasing the same key gives back the keystate buffer as it
    was, byte for byte; in between the bit of the key is set. *)
Theorem press_release_round_trip (press release : keyrecord_t) s :
  key (event release) = key (event press) ->
  pressed (event press) = true ->
  pressed (event release) = false ->
  IS_NOEVENT (event press) = false ->
  IS_NOEVENT (event release) = false ->
  backlight_active s = true ->
  keystate_ok (keystate s) ->
  0 <= key_position press < 72 ->
  keystate_bit (keystate s) (key_position press) = false ->
  exists s1 t1 s2 t2,
    anne_pro_lighting_update_dynamic press s = Some (tt, s1, t1) /\
    anne_pro_lighting_update_dynamic release s1 = Some (tt, s2, t2) /\
    keystate_bit (keystate s1) (key_position press) = true /\
    keystate s2 = keystate s.
Proof.
  intros Hkey Hdown Hup Hno1 Hno2 Hbl Hok Hpos Hclear.
  assert (key_position release = key_position press) as Hsame
    by (unfold key_position; now rewrite Hkey).
  destruct (update_dynamic_active press s Hno1 Hbl Hok Hpos)
    as (ks1 & s1 & Hrun1 & Hks1 & _ & Hok1 & Hbits1 & _ & Hbl1 & _).
  rewrite <- Hks1 in Hok1.
  destruct (update_dynamic_active release s1 Hno2 Hbl1 Hok1
              ltac:(rewrite Hsame; exact Hpos))
    as (ks2 & s2 & Hrun2 & Hks2 & _).
  eexists s1, _, s2, _. split; [exact Hrun1 |]. split; [exact Hrun2 |].
  split.
  { rewrite Hks1, Hbits1 by lia. now rewrite Z.eqb_refl. }
  pose proof Hrun1 as Hinv1. pose proof Hrun2 as Hinv2.
  apply update_dynamic_inv in Hinv1
    as [(_ & Hnil & _) | (_ & _ & x & _ & Hx & _ & Hs1 & _)]; [discriminate Hnil |].
  apply update_dynamic_inv in Hinv2
    as [(_ & Hnil & _) | (_ & _ & y & _ & Hy & _ & Hs2 & _)]; [discriminate Hnil |].
  cbv zeta in *. rewrite Hdown in *. rewrite Hup in *.
  fold (key_position press) in *. fold (key_position release) in *.
  rewrite Hsame in *.
  set (p := key_position press) in *.
  rewrite Z.quot_div_nonneg, Z.rem_mod_nonneg in * by lia.
  destruct Hok as (Hlen & _ & Hrange).
  assert (0 <= p / 8 < 9) as Hidx
    by (split; [apply Z.div_pos | apply Z.div_lt_upper_bound]; lia).
  assert (0 <= p mod 8 < 8) as Hbit by (apply Z.mod_pos_bound; lia).
  subst s1 s2. cbn [set_led_uart_ringbuf set_keystate keystate] in *.
  unfold byte in *.
  rewrite list_lookup_insert_eq in Hy by lia. inversion Hy; subst y.
  rewrite list_insert_insert_eq.
  rewrite set_then_clear; [now apply list_insert_id | | exact Hbit |].
  - exact (proj1 (Forall_lookup _ _) Hrange _ _ Hx).
  - unfold keystate_bit in Hclear. rewrite nth_lookup in Hclear.
    unfold byte in *. now rewrite Hx in Hclear.
Qed.

(** X10: on a matrix of at most 72 keys (rows * MATRIX_COLS <= 72),
    every key event with its row below the row count and its column
    below MATRIX_COLS is handled within the keystate buffer:
    update_dynamic returns, and the buffer keeps its shape. *)
Theorem update_dynamic_in_bounds (rows : Z) (record : keyrecord_t) s :
  rows * MATRIX_COLS <= 72 ->
  0 <= row (key (event record)) < rows ->
  0 <= col (key (event record)) < MATRIX_COLS ->
  keystate_ok (keystate s) ->
  exists s' tr,
    anne_pro_lighting_update_dynamic record s = Some (tt, s', tr) /\
    keystate_ok (keystate s').
Proof.
  intros Hsize Hrow Hcol Hok.
  destruct (IS_NOEVENT (event record)) eqn:Hno.
  { exists s, []. unfold anne_pro_lighting_update_dynamic. now rewrite Hno. }
  destruct (backlight_active s) eqn:Hbl.
  2:{ exists s, []. unfold anne_pro_lighting_update_dynamic.
      rewrite Hno. cbv [mbind M_bind gets]. now rewrite Hbl. }
  assert (0 <= key_position record < 72) as Hpos
    by (unfold key_position; nia).
  destruct (update_dynamic_active record s Hno Hbl Hok Hpos)
    as (ks' & s' & Hrun & Hks & _ & Hok' & _).
  eexists s', _. split; [exact Hrun |]. now rewrite Hks.
Qed.

(** ** Framing of what is enqueued *)

Lemma keystate_packets (ks : list byte) : keystate_ok ks -> packets ks.
Proof.
  intros (Hlen & Hhead & _).
  do 12 (destruct ks as [| ? ks]; [discriminate Hlen |]).
  destruct ks; [| discriminate Hlen].
  cbn in Hhead. inversion Hhead; subst.
  exact (packets_cons 10 [_; _; _; _; _; _; _; _; _; _] [] eq_refl packets_nil).
Qed.

Lemma keystate_ok_insert (ks : list byte) (i : nat) (v : byte) :
  keystate_ok ks -> (3 <= i)%nat -> 0 <= v < 256 -> keystate_ok (<[i := v]> ks).
Proof.
  intros (Hlen & Hhead & Hrange) Hi Hv.
  split; [now rewrite length_insert | split].
  - now rewrite take_insert_ge.
  - now apply Forall_insert.
Qed.

(** X11: whatever an operation hands to the ring buffer is a sequence of
    whole packets 09 <len> <len bytes>: the length byte of every command
    counts exactly the bytes that follow it.  For update_dynamic the key
    position is non-negative and the keystate buffer has its shape; for
    set_key_colors the key count is at most 50. *)
Theorem enqueued_packets (a : api) s s' tr :
  keystate_ok (keystate s) ->
  (forall record, a = UpdateDynamic record -> 0 <= key_position record) ->
  (forall keys payload, a = SetKeys keys payload -> keys <= 50) ->
  exec a s = Some (tt, s', tr) ->
  packets (enqueued tr).
Proof.
  intros Hok Hev Hkeys.
  destruct a as [| | record | | | | | | | | | | | | keys payload].
  3:{ intros H. specialize (Hev record eq_refl). unfold key_position in Hev.
      apply update_dynamic_inv in H
        as [(_ & -> & _) | (_ & _ & x & Hi & Hx & _ & _ & ->)];
        [exact packets_nil |].
      cbv zeta in *. cbn [enqueued]. rewrite app_nil_r.
      match goal with
      | |- packets (take 12 ?l) => assert (keystate_ok l) as Hok'
      end.
      { apply keystate_ok_insert; [exact Hok | |].
        - pose proof (Z.quot_pos _ 8 Hev ltac:(lia)). lia.
        - unfold uint8. destruct (pressed (event record));
            apply Z.mod_pos_bound; lia. }
      rewrite take_ge by (rewrite (proj1 Hok'); lia).
      now apply keystate_packets. }
  14:{ intros H. specialize (Hkeys keys payload eq_refl).
       apply bind_inv in H as (awake & s1 & t1 & t2 & Hg & Hk & ->).
       inversion Hg; subst; clear Hg.
       destruct (leds_awake s1).
       2:{ inversion Hk; subst. exact packets_nil. }
       cbv zeta in Hk.
       apply bind_inv in Hk as ([] & s2 & t3 & t4 & Hw1 & Hk & ->).
       apply bind_inv in Hk as ([] & s3 & t5 & t6 & Hw2 & Hk & ->).
       apply ringbuf_write_inv in Hw1 as (_ & _ & ->).
       apply ringbuf_write_inv in Hw2 as (Hcount & _ & ->).
       inversion Hk; subst; clear Hk.
       cbn [app enqueued]. change (Z.to_nat 5) with 5%nat. cbn [take].
       refine (packets_cons _ ([11; 202; keys] ++ take _ payload) [] _ packets_nil).
       unfold byte in *.
       rewrite length_app, length_take_le by lia. cbn [length].
       unfold uint8. rewrite Z.mod_small by lia. lia. }
  all: destruct s as [rb awake bl caps ks]; run_cases H; vm_compute;
    first [ exact packets_nil
          | exact (packets_cons _ [_] [] eq_refl packets_nil)
          | exact (packets_cons _ [_; _] [] eq_refl packets_nil)
          | exact (packets_cons _ [_; _; _; _] [] eq_refl packets_nil) ].
Qed.

End Runs.

(** ** Runs on the example board *)

#[local] Existing Instance anne_pro_board.

Lemma users_awake_boot : users_awake boot.
Proof. intros H. discriminate H. Qed.

Lemma users_awake_kept_witness :
  exists s' tr,
    exec_all [Init; LedSetKb usb_led_caps; Toggle; Update;
              LedSetKb usb_led_none; Update] boot = Some (tt, s', tr) /\
    users_awake s'.
Proof.
  eexists _, _. split; [vm_compute; reflexivity |].
  eapply (users_awake_kept
            [Init; LedSetKb usb_led_caps; Toggle; Update;
             LedSetKb usb_led_none; Update] boot).
  - repeat (constructor; [discriminate |]). constructor.
  - exact users_awake_boot.
  - vm_compute. reflexivity.
Defined.

Lemma power_mirrors_leds_awake_witness :
  exists s' tr,
    exec_all [On; Mode 5; Off; LedSetKb usb_led_caps] boot = Some (tt, s', tr) /\
    power_after (power_of boot) tr = power_of s'.
Proof.
  eexists _, _. split; [vm_compute; reflexivity |].
  eapply (power_mirrors_leds_awake [On; Mode 5; Off; LedSetKb usb_led_caps] boot).
  - repeat (constructor; [discriminate |]). constructor.
  - vm_compute. reflexivity.
Defined.

Lemma writes_only_when_ready_witness :
  exists s' tr,
    exec_all [LedSetKb usb_led_caps; Toggle; RateNext;
              SetKeys 1 [1; 255; 0; 0; 0]; Update] boot = Some (tt, s', tr) /\
    writes_ready (power_of boot) tr = true.
Proof.
  eexists _, _. split; [vm_compute; reflexivity |].
  eapply (writes_only_when_ready
            [LedSetKb usb_led_caps; Toggle; RateNext;
             SetKeys 1 [1; 255; 0; 0; 0]; Update] boot).
  - repeat (constructor;
            [split; [discriminate | split; [discriminate |]];
             intros usb_led Heq; inversion Heq; reflexivity |]).
    constructor.
  - exact users_awake_boot.
  - vm_compute. reflexivity.
Defined.

Lemma toggle_inverts_enabled_witness :
  exists s' tr,
    anne_pro_lighting_toggle boot = Some (tt, s', tr) /\
    anne_pro_lighting_enabled s' = Some (true, s', []) /\
    enqueued tr = [9; 1; 1].
Proof.
  destruct (toggle_inverts_enabled (board := anne_pro_board) boot eq_refl (fun H => users_awake_boot H))
    as (s' & tr & Hrun & Hen & _ & Henq & _).
  exists s', tr. split; [exact Hrun |]. split; [exact Hen | exact Henq].
Defined.

Lemma toggle_stuck_after_off_witness :
  leds_awake (set_backlight_active true boot) = false /\
  backlight_active (set_backlight_active true boot) = true /\
  anne_pro_lighting_toggle (set_backlight_active true boot)
  = Some (tt, set_backlight_active true boot, []).
Proof.
  split; [reflexivity |]. split; [reflexivity |].
  exact (toggle_stuck_after_off (board := anne_pro_board)
           (set_backlight_active true boot) eq_refl eq_refl).
Defined.

Lemma capslock_cycle_witness :
  IS_LED_ON usb_led_caps USB_LED_CAPS_LOCK = true /\
  IS_LED_ON usb_led_none USB_LED_CAPS_LOCK = false /\
  exists s' tr,
    exec_all [LedSetKb usb_led_caps; LedSetKb usb_led_none; Update] boot
    = Some (tt, s', tr) /\
    leds_awake s' = false /\
    enqueued tr = [9; 2; 12; 1; 9; 2; 12; 0].
Proof.
  split; [reflexivity |]. split; [reflexivity |].
  destruct (capslock_cycle (board := anne_pro_board)
              usb_led_caps usb_led_none boot
              eq_refl eq_refl eq_refl eq_refl)
    as (s' & tr & Hrun & Hasleep & _ & _ & _ & Henq & _).
  exists s', tr. split; [exact Hrun |]. split; [exact Hasleep | exact Henq].
Defined.

Lemma keystate_shape_kept_witness :
  exists s' tr,
    exec_all [On; Mode 5; UpdateDynamic press_last_key;
              UpdateDynamic release_last_key] boot = Some (tt, s', tr) /\
    keystate_ok (keystate s').
Proof.
  assert (0 <= MATRIX_COLS) as Hcols by (change (0 <= 14); lia).
  assert (Forall (fun a => forall record, a = UpdateDynamic record ->
                    0 <= row (key (event record)) /\
                    0 <= col (key (event record)))
            [On; Mode 5; UpdateDynamic press_last_key;
             UpdateDynamic release_last_key]) as Hevents.
  { repeat (constructor;
            [intros record Heq; inversion Heq; subst; cbn; lia |]).
    constructor. }
  eexists _, _. split; [vm_compute; reflexivity |].
  refine (proj1 (keystate_shape_kept (board := anne_pro_board)
                   [On; Mode 5; UpdateDynamic press_last_key;
                    UpdateDynamic release_last_key] boot _ _
                   Hcols Hevents keystate_init_ok _)).
  vm_compute. reflexivity.
Defined.

Lemma press_release_round_trip_witness :
  keystate_bit (keystate awake_backlit) (key_position press_last_key) = false /\
  exists s1 t1 s2 t2,
    anne_pro_lighting_update_dynamic press_last_key awake_backlit
    = Some (tt, s1, t1) /\
    anne_pro_lighting_update_dynamic release_last_key s1 = Some (tt, s2, t2) /\
    keystate s2 = keystate awake_backlit.
Proof.
  split; [reflexivity |].
  assert (0 <= key_position press_last_key < 72) as Hpos
    by (change (0 <= 69 < 72); lia).
  destruct (press_release_round_trip (board := anne_pro_board)
              press_last_key release_last_key awake_backlit
              eq_refl eq_refl eq_refl eq_refl eq_refl eq_refl
              keystate_init_ok Hpos eq_refl)
    as (s1 & t1 & s2 & t2 & H1 & H2 & _ & Hback).
  exists s1, t1, s2, t2. split; [exact H1 |]. split; [exact H2 | exact Hback].
Defined.

Lemma update_dynamic_in_bounds_witness :
  5 * MATRIX_COLS <= 72 /\
  exists s' tr,
    anne_pro_lighting_update_dynamic press_last_key awake_backlit
    = Some (tt, s', tr).
Proof.
  assert (5 * MATRIX_COLS <= 72) as Hsize by (change (5 * 14 <= 72); lia).
  assert (0 <= row (key (event press_last_key)) < 5) as Hrow
    by (change (0 <= 4 < 5); lia).
  assert (0 <= col (key (event press_last_key)) < MATRIX_COLS) as Hcol
    by (change (0 <= 13 < 14); lia).
  split; [exact Hsize |].
  destruct (update_dynamic_in_bounds (board := anne_pro_board)
              5 press_last_key awake_backlit Hsize Hrow Hcol keystate_init_ok)
    as (s' & tr & Hrun & _).
  exists s', tr. exact Hrun.
Defined.

Lemma enqueued_packets_witness :
  exists s' tr,
    exec (SetKeys 2 [1; 255; 0; 0; 0; 2; 0; 255; 0; 0]) awake_idle
    = Some (tt, s', tr) /\
    packets (enqueued tr).
Proof.
  eexists _, _. split; [vm_compute; reflexivity |].
  eapply (enqueued_packets (SetKeys 2 [1; 255; 0; 0; 0; 2; 0; 255; 0; 0])
            awake_idle).
  - exact keystate_init_ok.
  - intros record Heq. discriminate Heq.
  - intros keys payload Heq. inversion Heq. lia.
  - vm_compute. reflexivity.
Defined.

End LightingRuns.
